(** * xlm-vanity-address-finder: a shallow embedding of [main] and its helpers

    The development follows [xlm-vanity-address-finder.go]:

    - [Go]: the standard-library operations the program calls on strings and
      paths ([range] over a string, [strings.HasPrefix], [strings.Contains],
      [strings.ToUpper], [strings.EqualFold], [filepath.Join]);
    - [Finder]: [isAlphanumeric], the start-up part of [main] (validation of
      [-find], resolution of [-output], the loop that starts the goroutines),
      the record-and-persist block of the coordinator, and the goroutines as
      a labelled transition system over the channels they share;
    - [Plain]: ASCII tables, a JSON codec for plain strings and a few states
      and runs, to evaluate the model on concrete inputs.

    A Go [string] is a sequence of bytes: it is modelled by [string], whose
    characters are the bytes.  A rune is a code point, an integer. *)

From Stdlib Require Import ZArith List String Ascii Bool Lia.
From Stdlib Require Import DecimalString.
Import ListNotations.
Open Scope string_scope.
Open Scope list_scope.
Open Scope Z_scope.

(** ** The Go library, as far as [main] uses it *)

Module Go.

Definition rune := Z.

Definition byte_val (c : ascii) : Z := Z.of_N (N_of_ascii c).

(** [utf8.RuneSelf] and [utf8.RuneError]. *)
Definition RuneSelf : Z := 128.
Definition RuneError : rune := 65533.

Definition between (lo hi b : Z) : bool := (lo <=? b) && (b <=? hi).

(** The second byte a leading byte accepts ([acceptRanges] of package
    [utf8]): [0xE0], [0xED], [0xF0] and [0xF4] narrow the usual
    continuation range. *)
Definition accept_lo (p0 : Z) : Z :=
  if p0 =? 224 then 160 else if p0 =? 240 then 144 else 128.

Definition accept_hi (p0 : Z) : Z :=
  if p0 =? 237 then 159 else if p0 =? 244 then 143 else 191.

Definition is_cont (b : Z) : bool := between 128 191 b.

Definition low6 (b : Z) : Z := Z.land b 63.

(** [for _, r := range s]: the runes of [s] in order.  A byte that does not
    start a well-formed encoding yields [RuneError] and the scan resumes at
    the next byte. *)
Fixpoint runes (s : string) : list rune :=
  match s with
  | EmptyString => []
  | String c0 s1 =>
      let p0 := byte_val c0 in
      let bad := RuneError :: runes s1 in
      if p0 <? RuneSelf then p0 :: runes s1
      else if between 194 223 p0 then
        match s1 with
        | String c1 s2 =>
            let b1 := byte_val c1 in
            if between (accept_lo p0) (accept_hi p0) b1
            then Z.lor (Z.shiftl (Z.land p0 31) 6) (low6 b1) :: runes s2
            else bad
        | _ => bad
        end
      else if between 224 239 p0 then
        match s1 with
        | String c1 (String c2 s3) =>
            let b1 := byte_val c1 in
            let b2 := byte_val c2 in
            if between (accept_lo p0) (accept_hi p0) b1 && is_cont b2
            then Z.lor (Z.shiftl (Z.land p0 15) 12)
                   (Z.lor (Z.shiftl (low6 b1) 6) (low6 b2)) :: runes s3
            else bad
        | _ => bad
        end
      else if between 240 244 p0 then
        match s1 with
        | String c1 (String c2 (String c3 s4)) =>
            let b1 := byte_val c1 in
            let b2 := byte_val c2 in
            let b3 := byte_val c3 in
            if between (accept_lo p0) (accept_hi p0) b1 && is_cont b2 && is_cont b3
            then Z.lor (Z.shiftl (Z.land p0 7) 18)
                   (Z.lor (Z.shiftl (low6 b1) 12)
                      (Z.lor (Z.shiftl (low6 b2) 6) (low6 b3))) :: runes s4
            else bad
        | _ => bad
        end
      else bad
  end.

(** [strings.HasPrefix(s, prefix)] *)
Fixpoint HasPrefix (s prefix : string) : bool :=
  match prefix with
  | EmptyString => true
  | String p prefix' =>
      match s with
      | EmptyString => false
      | String c s' => Ascii.eqb c p && HasPrefix s' prefix'
      end
  end.

(** [strings.Contains(s, substr)]: [substr] occurs at some offset of [s]. *)
Fixpoint Contains (s substr : string) : bool :=
  HasPrefix s substr ||
  match s with
  | EmptyString => false
  | String _ s' => Contains s' substr
  end.

Definition is_lower (c : ascii) : bool := between 97 122 (byte_val c).

Fixpoint isASCII (s : string) : bool :=
  match s with
  | EmptyString => true
  | String c s' => (byte_val c <? RuneSelf) && isASCII s'
  end.

(** [c -= 'a' - 'A'] on a lower-case byte. *)
Definition upper_byte (c : ascii) : ascii :=
  if is_lower c then ascii_of_N (Z.to_N (byte_val c - 32)) else c.

Fixpoint map_bytes (f : ascii -> ascii) (s : string) : string :=
  match s with
  | EmptyString => EmptyString
  | String c s' => String (f c) (map_bytes f s')
  end.

(** What the program needs of package [unicode].  The tables themselves are
    not part of the program: [IsLetter] and [IsNumber] are
    [unicode.IsLetter] and [unicode.IsNumber]; [upper_map s] is
    [strings.Map(unicode.ToUpper, s)], the slow path of [strings.ToUpper];
    [fold_tail s t] is the [hasUnicode] loop of [strings.EqualFold] run on
    the two remaining suffixes. *)
Class Unicode := {
  IsLetter : rune -> bool;
  IsNumber : rune -> bool;
  upper_map : string -> string;
  fold_tail : string -> string -> bool
}.

Section WithUnicode.
Context {U : Unicode}.

(** [strings.ToUpper]: the ASCII fast path maps bytes, anything else goes
    through the Unicode tables. *)
Definition ToUpper (s : string) : string :=
  if isASCII s then map_bytes upper_byte s else upper_map s.

(** [strings.EqualFold]: the loop over the common prefix of bytes, with the
    jump to [hasUnicode] at the first pair of bytes that is not ASCII, and
    the comparison of the lengths once one string is exhausted. *)
Fixpoint EqualFold (s t : string) : bool :=
  match s, t with
  | String sc s', String tc t' =>
      let sr := byte_val sc in
      let tr := byte_val tc in
      if RuneSelf <=? Z.lor sr tr then fold_tail s t
      else if tr =? sr then EqualFold s' t'
      else
        let lo := Z.min sr tr in
        let hi := Z.max sr tr in
        if between 65 90 lo && (hi =? lo + 32)
        then EqualFold s' t'
        else false
  | EmptyString, EmptyString => true
  | _, _ => false
  end.

End WithUnicode.

(** [os.PathSeparator] on the systems the program's [./] prefix is written
    for. *)
Definition PathSeparator : string := "/".

(** [filepath.Clean], lexically: the path is cut at the separators, empty
    and [.] elements are dropped, [..] removes the element before it (or is
    dropped at the root, or kept at the start of a relative path), and an
    empty result is [.]. *)
Fixpoint split_sep (cur s : string) : list string :=
  match s with
  | EmptyString => [cur]
  | String c s' =>
      if Ascii.eqb c "/" then cur :: split_sep "" s'
      else split_sep (cur ++ String c "")%string s'
  end.

Fixpoint clean_elems (rooted : bool) (stack elems : list string) : list string :=
  match elems with
  | [] => rev stack
  | e :: es =>
      if String.eqb e "" || String.eqb e "." then clean_elems rooted stack es
      else if String.eqb e ".." then
        match stack with
        | top :: stack' =>
            if String.eqb top ".." then clean_elems rooted (e :: stack) es
            else clean_elems rooted stack' es
        | [] =>
            if rooted then clean_elems rooted [] es
            else clean_elems rooted [e] es
        end
      else clean_elems rooted (e :: stack) es
  end.

Definition Clean (path : string) : string :=
  let rooted := HasPrefix path PathSeparator in
  let body := String.concat "/" (clean_elems rooted [] (split_sep "" path)) in
  let out := ((if rooted then "/" else "") ++ body)%string in
  if String.eqb out "" then "." else out.

(** [filepath.Join(a, b)]: empty leading elements are ignored, the rest is
    joined with the separator and cleaned. *)
Definition Join (a b : string) : string :=
  if negb (String.eqb a "") then Clean (a ++ "/" ++ b)%string
  else if negb (String.eqb b "") then Clean b
  else "".

End Go.

(** ** The program *)

Module Finder.
Import Go.

(** [type result struct { Address string; Seed string }] *)
Record result := { Address : string; Seed : string }.

(** The flags once [config.Parse] has run: [-find], [-cores], [-output],
    [-stop], [-quiet], [-every]. *)
Record Config := {
  Find : string;
  Cores : Z;
  Output : string;
  Stop : Z;
  Quiet : bool;
  Every : Z
}.

(** [encoding/json] on [[]result].  [Marshal] cannot fail on this type;
    [Unmarshal] answers [None] when it returns an error. *)
Class Json := {
  Marshal : list result -> string;
  Unmarshal : string -> option (list result)
}.

(** [var defaultOutputPath = filepath.Join(".", "default.json")] *)
Definition defaultOutputPath : string := Join "." "default.json".

(** What is written with [log] and [fmt]; the texts are those of the
    source. *)
Inductive event :=
| LogFound (address seed : string) (total : Z)
| LogFoundQuiet (address seed : string)
| LogWatchdog         (* Watchdog received termination request. Exiting... *)
| LogTimerLimit       (* Timer reached limit. *)
| LogFinished         (* Finished running! *)
| PrintScanned (total : Z)
| PrintShortWrite (written expected : nat)
| PrintSaved (n : nat) (path : string)
| LogFatal.

Section Program.
Context {U : Unicode} {J : Json}.

(** [func isAlphanumeric(s string) bool] *)
Fixpoint isAlphanumeric_range (rs : list rune) : bool :=
  match rs with
  | [] => true
  | r :: rs' =>
      if negb (IsLetter r) && negb (IsNumber r) then false
      else isAlphanumeric_range rs'
  end.

Definition isAlphanumeric (s : string) : bool := isAlphanumeric_range (runes s).

(** Lines 115-123 of [main]: the [./] prefix, then the replacement of the
    default path by one made from [-find]. *)
Definition prefix_output (out : string) : string :=
  if negb (HasPrefix out PathSeparator) || negb (HasPrefix out ".")
  then ("./" ++ out)%string
  else out.

Definition resolve_output (find out : string) : string :=
  let out1 := prefix_output out in
  if EqualFold out1 defaultOutputPath
  then Join "." (find ++ ".json")%string
  else out1.

(** The test of the search loops:
    [strings.Contains(pair.Address(), strings.ToUpper(find))]. *)
Definition matches (find : string) (kp : result) : bool :=
  Contains (Address kp) (ToUpper find).

(** *** The goroutines *)

(** A worker is at its [select], inside one of the two search loops, at the
    send of a pair it found, or has returned. *)
Inductive wstate :=
| WSelect
| WSearch
| WSend (m : result)
| WReturned.

(** The coordinator ([main] after start-up) is at its [select], inside the
    [resultsCh] case with the value it received, blocked for good on a
    send, or the process has exited. *)
Inductive mstate :=
| MSelect
| MHandling (m : result)
| MBlocked
| MExited (code : Z).

(** [timer.C] delivers one value: the timer is running, has fired with its
    value still in the channel, or the value has been received. *)
Inductive timer_state := Armed | Fired | Spent.

Record state := {
  workers : list wstate;
  coord : mstate;
  watchdog : bool;           (* [chan os.Signal], capacity 1: a signal waits *)
  timer : timer_state;
  ticker : bool;             (* [ticker.C], capacity 1: a tick waits *)
  done : bool;               (* [chan struct{}], capacity 1 *)
  resultsCh : list result;   (* [chan result], capacity 1024 *)
  total : Z;                 (* [atomic.Int64] *)
  results : list result;     (* [var results []result] *)
  disk : option string;      (* the file at [-output], if there is one *)
  console : list event
}.

(** The loop [for i := 0; i <= cores; i++ { go func ... }], one turn per unit
    of fuel; every turn starts one goroutine, which begins at its
    [select]. *)
Fixpoint spawn_loop (fuel : nat) (i cores : Z) (started : list wstate) : list wstate :=
  match fuel with
  | O => started
  | S fuel' =>
      if i <=? cores then spawn_loop fuel' (i + 1) cores (started ++ [WSelect])
      else started
  end.

Definition spawn_workers (cores : Z) : list wstate :=
  spawn_loop (Z.to_nat (cores + 2)) 0 cores [].

(** What start-up depends on besides the flags: whether [user.Current] or
    [config.Parse] returns an error, and the output file left by an earlier
    run. *)
Record Host := {
  user_err : bool;
  parse_err : bool;
  disk0 : option string
}.

Definition init_state (ws : list wstate) (d : option string) : state :=
  {| workers := ws; coord := MSelect; watchdog := false; timer := Armed;
     ticker := false; done := false; resultsCh := []; total := 0;
     results := []; disk := d; console := [] |}.

(** [main] up to the coordinator's loop: [inl code] when [log.Fatal] ends
    the process, else the flags as resolved and the state in which the
    goroutines have been started. *)
Definition start (h : Host) (flags : Config) : Z + Config * state :=
  if user_err h then inl 1
  else if parse_err h then inl 1
  else if negb (isAlphanumeric (Find flags)) then inl 1
  else
    let cfg := {| Find := Find flags; Cores := Cores flags;
                  Output := resolve_output (Find flags) (Output flags);
                  Stop := Stop flags; Quiet := Quiet flags;
                  Every := Every flags |} in
    inr (cfg, init_state (spawn_workers (Cores flags)) (disk0 h)).

(** *** Recording a pair and writing the file *)

(** What the operating system answers during one pass through the
    [resultsCh] case: [os.ReadFile] may fail on a file that is there,
    [os.OpenFile] and [Close] may fail, and [Write] returns a count and
    possibly an error. *)
Inductive write_outcome :=
| WriteAll
| WritePart (n : nat) (err : bool).

Record os_io := {
  read_fails : bool;
  open_fails : bool;
  write_res : write_outcome;
  close_fails : bool
}.

(** [os.ReadFile(path)]: [None] stands for a non-nil [readErr], whatever its
    kind; the source looks only at [readErr == nil]. *)
Definition ReadFile (o : os_io) (d : option string) : option string :=
  if read_fails o then None else d.

Fixpoint drop (n : nat) (s : string) : string :=
  match n, s with
  | S n', String _ s' => drop n' s'
  | _, _ => s
  end.

Fixpoint take (n : nat) (s : string) : string :=
  match n, s with
  | S n', String c s' => String c (take n' s')
  | _, _ => EmptyString
  end.

(** [Write] on a file opened with [O_CREATE|O_RDWR] and no [O_TRUNC]: the
    bytes go over the start of the old content, and what the old content
    has beyond them stays. *)
Definition write_over (old new : string) : string :=
  (new ++ drop (String.length new) old)%string.

(** The inner loop
    [for _, rr := range results { if strings.EqualFold(r.Address, rr.Address) { continue } }]:
    [continue] resumes this loop, so both branches go on to the next [rr]
    and the loop leaves nothing behind. *)
Fixpoint scan_results (r : result) (rs : list result) : unit :=
  match rs with
  | [] => tt
  | rr :: rs' =>
      if EqualFold (Address r) (Address rr) then scan_results r rs'
      else scan_results r rs'
  end.

(** The outer loop [for _, r := range inOutputAlready]: the inner loop, then
    [results = append(results, r)]. *)
Fixpoint merge_loop (inOutputAlready rs : list result) : list result :=
  match inOutputAlready with
  | [] => rs
  | r :: rest =>
      match scan_results r rs with
      | tt => merge_loop rest (rs ++ [r])
      end
  end.

Definition merge_disk (inOutputAlready rs : list result) : list result :=
  if (0 <? List.length inOutputAlready)%nat then merge_loop inOutputAlready rs else rs.

Definition say (quiet : bool) (e : event) : list event :=
  if quiet then [] else [e].

(** How a pass through the [resultsCh] case ends: the loop goes on, or
    [log.Fatal] ends the process with code 1. *)
Inductive verdict := Continue | Fatal.

Record persisted := {
  p_results : list result;
  p_disk : option string;
  p_console : list event;
  p_verdict : verdict
}.

Definition fatal (rs : list result) (d : option string) (c : list event) : persisted :=
  {| p_results := rs; p_disk := d; p_console := c ++ [LogFatal]; p_verdict := Fatal |}.

(** Lines 238-296: append the pair, read and merge the file, encode, open,
    write, close, report. *)
Definition record_and_persist (cfg : Config) (o : os_io)
    (rs : list result) (d : option string) (c : list event) (m : result) : persisted :=
  let rs1 := rs ++ [m] in
  let merged :=
    match ReadFile o d with
    | Some existing =>
        match Unmarshal existing with
        | None => None
        | Some inOutputAlready => Some (merge_disk inOutputAlready rs1)
        end
    | None => Some rs1
    end in
  match merged with
  | None => fatal rs1 d c
  | Some rs2 =>
      let outputBytes := Marshal rs2 in
      if open_fails o then fatal rs2 d c
      else
        let old := match d with Some b => b | None => EmptyString end in
        match write_res o with
        | WritePart n true => fatal rs2 (Some (write_over old (take n outputBytes))) c
        | w =>
            let bytesWritten :=
              match w with
              | WriteAll => String.length outputBytes
              | WritePart n _ => n
              end in
            let d1 := Some (write_over old (take bytesWritten outputBytes)) in
            let c1 :=
              if negb (Nat.eqb bytesWritten (String.length outputBytes))
              then c ++ say (Quiet cfg) (PrintShortWrite bytesWritten (String.length outputBytes))
              else c in
            if close_fails o then fatal rs2 d1 c1
            else
              {| p_results := rs2; p_disk := d1;
                 p_console := c1 ++ say (Quiet cfg) (PrintSaved (List.length rs2) (Output cfg));
                 p_verdict := Continue |}
        end
  end.

(** [Write] returned a non-nil error. *)
Definition write_errs (o : os_io) : bool :=
  match write_res o with
  | WritePart _ true => true
  | _ => false
  end.

(** *** The transitions *)

(** What a worker does next.  [ctx] is [context.Background()], whose [Done]
    channel is never ready, so its case is never taken. *)
Inductive wmove :=
| SelWatchdog                 (* [case <-watchdog: return] *)
| SelTimer                    (* [case <-timer.C: return] *)
| SelDefault (kp : result)  (* [default:], [var pair, _ = keypair.Random()] *)
| Gen (kp : result)         (* [pair, _ = keypair.Random()] in the loop header, the test, the body *)
| Send.                       (* [resultsCh <- result{...}] *)

(** What the coordinator does next: one of the cases of its [select], or the
    rest of the [resultsCh] case. *)
Inductive mmove :=
| OnTick
| OnWatchdog
| OnTimer
| OnDone
| OnResult
| Persist (o : os_io).

(** The operating system delivers a signal, the timer or the ticker fires,
    a worker moves, or the coordinator moves. *)
Inductive label :=
| OsSignal
| TimerFires
| TickerFires
| Worker (i : nat) (mv : wmove)
| Coordinator (mv : mmove).

Fixpoint set_nth (i : nat) (w : wstate) (ws : list wstate) : list wstate :=
  match ws, i with
  | [], _ => []
  | _ :: ws', O => w :: ws'
  | w0 :: ws', S i' => w0 :: set_nth i' w ws'
  end.

Definition set_worker (i : nat) (w : wstate) (s : state) : state :=
  {| workers := set_nth i w (workers s); coord := coord s; watchdog := watchdog s;
     timer := timer s; ticker := ticker s; done := done s;
     resultsCh := resultsCh s; total := total s; results := results s;
     disk := disk s; console := console s |}.

Definition set_coord (m : mstate) (s : state) : state :=
  {| workers := workers s; coord := m; watchdog := watchdog s;
     timer := timer s; ticker := ticker s; done := done s;
     resultsCh := resultsCh s; total := total s; results := results s;
     disk := disk s; console := console s |}.

Definition set_watchdog (b : bool) (s : state) : state :=
  {| workers := workers s; coord := coord s; watchdog := b;
     timer := timer s; ticker := ticker s; done := done s;
     resultsCh := resultsCh s; total := total s; results := results s;
     disk := disk s; console := console s |}.

Definition set_timer (t : timer_state) (s : state) : state :=
  {| workers := workers s; coord := coord s; watchdog := watchdog s;
     timer := t; ticker := ticker s; done := done s;
     resultsCh := resultsCh s; total := total s; results := results s;
     disk := disk s; console := console s |}.

Definition set_ticker (b : bool) (s : state) : state :=
  {| workers := workers s; coord := coord s; watchdog := watchdog s;
     timer := timer s; ticker := b; done := done s;
     resultsCh := resultsCh s; total := total s; results := results s;
     disk := disk s; console := console s |}.

Definition set_done (b : bool) (s : state) : state :=
  {| workers := workers s; coord := coord s; watchdog := watchdog s;
     timer := timer s; ticker := ticker s; done := b;
     resultsCh := resultsCh s; total := total s; results := results s;
     disk := disk s; console := console s |}.

Definition set_resultsCh (q : list result) (s : state) : state :=
  {| workers := workers s; coord := coord s; watchdog := watchdog s;
     timer := timer s; ticker := ticker s; done := done s;
     resultsCh := q; total := total s; results := results s;
     disk := disk s; console := console s |}.

Definition set_total (n : Z) (s : state) : state :=
  {| workers := workers s; coord := coord s; watchdog := watchdog s;
     timer := timer s; ticker := ticker s; done := done s;
     resultsCh := resultsCh s; total := n; results := results s;
     disk := disk s; console := console s |}.

Definition log (es : list event) (s : state) : state :=
  {| workers := workers s; coord := coord s; watchdog := watchdog s;
     timer := timer s; ticker := ticker s; done := done s;
     resultsCh := resultsCh s; total := total s; results := results s;
     disk := disk s; console := console s ++ es |}.

Definition set_store (p : persisted) (s : state) : state :=
  {| workers := workers s; coord := coord s; watchdog := watchdog s;
     timer := timer s; ticker := ticker s; done := done s;
     resultsCh := resultsCh s; total := total s; results := p_results p;
     disk := p_disk p; console := p_console p |}.

(** [total.Add(1)] on an [int64]. *)
Definition add_int64 (x d : Z) : Z := (x + d + 2 ^ 63) mod 2 ^ 64 - 2 ^ 63.

(** Capacity of [resultsCh]. *)
Definition resultsCh_cap : nat := 1024.

Definition timer_ready (s : state) : bool :=
  match timer s with Fired => true | _ => false end.

(** One move of worker [i].  At the [select], a case whose channel holds a
    value may be taken, and [default] only when none does.  In a search
    loop every turn draws a pair and tests it: a pair that passes ends the
    loop, is logged and goes to the send; one that fails runs the loop body,
    which adds to [total] only in the loop of the non-quiet branch. *)
Definition worker_step (cfg : Config) (i : nat) (mv : wmove) (s : state) : option state :=
  match nth_error (workers s) i, mv with
  | Some WSelect, SelWatchdog =>
      if watchdog s then Some (set_worker i WReturned (set_watchdog false s))
      else None
  | Some WSelect, SelTimer =>
      if timer_ready s then Some (set_worker i WReturned (set_timer Spent s))
      else None
  | Some WSelect, SelDefault _ =>
      if watchdog s || timer_ready s then None
      else Some (set_worker i WSearch s)
  | Some WSearch, Gen kp =>
      if matches (Find cfg) kp then
        let found :=
          if negb (Quiet cfg) then LogFound (Address kp) (Seed kp) (total s)
          else LogFoundQuiet (Address kp) (Seed kp) in
        Some (set_worker i
                (WSend {| Address := Address kp; Seed := Seed kp |})
                (log [found] s))
      else if Quiet cfg then Some s
      else Some (set_total (add_int64 (total s) 1) s)
  | Some (WSend m), Send =>
      if (List.length (resultsCh s) <? resultsCh_cap)%nat
      then Some (set_worker i WSelect (set_resultsCh (resultsCh s ++ [m]) s))
      else None
  | _, _ => None
  end.

(** One move of the coordinator.  Its [select] has no [default]: a case is
    taken only when its channel holds a value.  [resultsCh] is closed by a
    deferred call, after the loop has been left, so the [!ok] branch is
    never entered. *)
Definition coord_step (cfg : Config) (mv : mmove) (s : state) : option state :=
  match coord s, mv with
  | MSelect, OnTick =>
      if ticker s
      then Some (log (say (Quiet cfg) (PrintScanned (total s))) (set_ticker false s))
      else None
  | MSelect, OnWatchdog =>
      if watchdog s
      then Some (set_coord (MExited 1) (log [LogWatchdog] (set_watchdog false s)))
      else None
  | MSelect, OnTimer =>
      if timer_ready s then
        let s1 := log (say (Quiet cfg) LogTimerLimit) (set_timer Spent s) in
        if done s1 then Some (set_coord MBlocked s1)
        else Some (set_done true s1)
      else None
  | MSelect, OnDone =>
      if done s
      then Some (set_coord (MExited 0) (log (say (Quiet cfg) LogFinished) (set_done false s)))
      else None
  | MSelect, OnResult =>
      match resultsCh s with
      | xlmAddress :: rest => Some (set_coord (MHandling xlmAddress) (set_resultsCh rest s))
      | [] => None
      end
  | MHandling xlmAddress, Persist o =>
      let p := record_and_persist cfg o (results s) (disk s) (console s) xlmAddress in
      match p_verdict p with
      | Continue => Some (set_coord MSelect (set_store p s))
      | Fatal => Some (set_coord (MExited 1) (set_store p s))
      end
  | _, _ => None
  end.

Definition exited (s : state) : bool :=
  match coord s with MExited _ => true | _ => false end.

(** One transition of the process; nothing moves once it has exited.  A
    signal or a tick that finds its channel full is dropped; the timer fires
    once. *)
Definition step (cfg : Config) (l : label) (s : state) : option state :=
  if exited s then None
  else
    match l with
    | OsSignal => Some (set_watchdog true s)
    | TimerFires =>
        match timer s with
        | Armed => Some (set_timer Fired s)
        | _ => None
        end
    | TickerFires => Some (set_ticker true s)
    | Worker i mv => worker_step cfg i mv s
    | Coordinator mv => coord_step cfg mv s
    end.

Fixpoint exec (cfg : Config) (tr : list label) (s : state) : option state :=
  match tr with
  | [] => Some s
  | l :: tr' =>
      match step cfg l s with
      | Some s' => exec cfg tr' s'
      | None => None
      end
  end.

(** *** Runs *)

(** A worker that has left its [select] and found nothing yet, or has
    returned: it will not receive from a channel before it finds a pair. *)
Definition in_search (w : wstate) : bool :=
  match w with
  | WSearch | WReturned => true
  | _ => false
  end.

(** The run before the deadline when no pair has been found: the timer is
    running, the workers are in their search loops, the coordinator waits at
    its [select], and the channels it shares with the workers are empty. *)
Definition searching (s : state) : bool :=
  forallb in_search (workers s)
  && match coord s with MSelect => true | _ => false end
  && negb (watchdog s)
  && match timer s with Armed => true | _ => false end
  && negb (done s)
  && match resultsCh s with [] => true | _ => false end.

(** A label under which no signal arrives and no pair passes the test. *)
Definition calm_label (cfg : Config) (l : label) : bool :=
  match l with
  | OsSignal => false
  | Worker _ (Gen kp) => negb (matches (Find cfg) kp)
  | _ => true
  end.

Definition calm (cfg : Config) (tr : list label) : bool :=
  forallb (calm_label cfg) tr.

(** The moves of the coordinator in a run, the progress reports aside. *)
Definition coord_move (l : label) : nat :=
  match l with
  | Coordinator OnTick => 0
  | Coordinator _ => 1
  | _ => 0
  end.

Definition coord_moves (tr : list label) : nat := list_sum (map coord_move tr).

(** How far the coordinator is on its way out after the deadline: the
    timer's value waits in [timer.C] (1), the marker waits in [done] (2),
    [main] has returned (3). *)
Definition way_out (s : state) : nat :=
  match coord s with
  | MExited _ => 3
  | _ => if done s then 2 else if timer_ready s then 1 else 0
  end.

(** What holds from the moment the timer has fired in a run without a
    found pair and without a signal. *)
Definition leaving (s0 s : state) : Prop :=
  forallb in_search (workers s) = true
  /\ watchdog s = false
  /\ resultsCh s = []
  /\ disk s = disk s0
  /\ results s = results s0
  /\ ((coord s = MSelect /\ timer s = Fired /\ done s = false)
      \/ (coord s = MSelect /\ timer s = Spent /\ done s = true)
      \/ coord s = MExited 0).

(** *** Formatting the count *)

(** [strconv.FormatInt(n, 10)]: the decimal digits, with [-] before them
    for a negative number. *)
Definition FormatInt (n : Z) : string := NilZero.string_of_int (Z.to_int n).

(** [len] of a string or slice, as an [int]. *)
Definition slen (l : list ascii) : Z := Z.of_nat (List.length l).

(** [s[i]], read; [None] is the panic of an index out of range. *)
Definition at_index (l : list ascii) (i : Z) : option ascii :=
  if i <? 0 then None else nth_error l (Z.to_nat i).

(** [s[i] = c]; [None] is the panic of an index out of range. *)
Fixpoint store_nat (l : list ascii) (i : nat) (c : ascii) : option (list ascii) :=
  match l, i with
  | [], _ => None
  | _ :: l', O => Some (c :: l')
  | x :: l', S i' =>
      match store_nat l' i' c with
      | Some l1 => Some (x :: l1)
      | None => None
      end
  end.

Definition store (l : list ascii) (i : Z) (c : ascii) : option (list ascii) :=
  if i <? 0 then None else store_nat l (Z.to_nat i) c.

(** The loop of [FormatInt64],
    [for i, j, k := len(in)-1, len(out)-1, 0; ; i, j = i-1, j-1], one turn
    per unit of fuel: [i] reads the digits from the right, [j] writes from
    the right, [k] counts the digits since the last comma. *)
Fixpoint FormatInt64_loop (fuel : nat) (inp : list ascii) (i j k : Z)
    (out : list ascii) : option (list ascii) :=
  match fuel with
  | O => None
  | S fuel' =>
      match at_index inp i with
      | None => None
      | Some c =>
          match store out j c with
          | None => None
          | Some out1 =>
              if i =? 0 then Some out1
              else
                let k1 := k + 1 in
                if k1 =? 3 then
                  match store out1 (j - 1) "," with
                  | None => None
                  | Some out2 => FormatInt64_loop fuel' inp (i - 1) (j - 1 - 1) 0 out2
                  end
                else FormatInt64_loop fuel' inp (i - 1) (j - 1) k1 out1
          end
      end
  end.

(** [func FormatInt64(n int64) string]; [None] when the code would panic
    (a negative length for [make], an index out of range). *)
Definition FormatInt64 (n : Z) : option string :=
  let inp := list_ascii_of_string (FormatInt n) in
  let numOfDigits := if n <? 0 then slen inp - 1 else slen inp in
  let numOfCommas := Z.quot (numOfDigits - 1) 3 in
  let size := slen inp + numOfCommas in
  if size <? 0 then None
  else
    let out := repeat zero (Z.to_nat size) in
    let sliced :=
      if n <? 0 then
        match inp, store out 0 "-" with
        | _ :: inp1, Some out1 => Some (inp1, out1)
        | _, _ => None
        end
      else Some (inp, out) in
    match sliced with
    | None => None
    | Some (inp1, out1) =>
        match FormatInt64_loop (List.length inp1) inp1
                (slen inp1 - 1) (slen out1 - 1) 0 out1 with
        | Some res => Some (string_of_list_ascii res)
        | None => None
        end
    end.

(** Digits taken from the least significant one, with a comma after every
    third digit that has another digit after it. *)
Fixpoint group_rev (rd : list ascii) : list ascii :=
  match rd with
  | a :: b :: c :: ((_ :: _) as rest) => a :: b :: c :: ","%char :: group_rev rest
  | _ => rd
  end.

(** A string of digits with a comma before every group of three digits
    counted from the right. *)
Definition grouped (digits : list ascii) : list ascii :=
  rev (group_rev (rev digits)).

(** What the loop has written once it has gone through the digits [rd]
    (least significant first) with [k] digits since the last comma. *)
Fixpoint written (k : nat) (rd : list ascii) : list ascii :=
  match rd with
  | [] => []
  | c :: rest =>
      match rest with
      | [] => [c]
      | _ :: _ =>
          if Nat.eqb (S k) 3 then written 0 rest ++ [","%char; c]
          else written (S k) rest ++ [c]
      end
  end.

Definition not_comma (c : ascii) : bool := negb (Ascii.eqb c ",").

(** A character of the decimal string other than its sign. *)
Definition is_digit (c : ascii) : Prop := not_comma c = true /\ c <> "-"%char.

(** The branch [case <-ticker.C] when not quiet, lines 206-215:
    [size] is the width [term.GetSize] answers, or [None] when it returns
    an error; [total1] and [total2] are the two values [total.Load()]
    gives, for the padding and for the text.  The result is what
    [fmt.Printf] writes; [None] when the code would panic. *)
Definition carriage_return : string := String (ascii_of_nat 13) EmptyString.

Definition Repeat (s : string) (count : Z) : option string :=
  if count <? 0 then None
  else Some (String.concat "" (repeat s (Z.to_nat count))).

Definition progress_line (size : option Z) (total1 total2 : Z) : option string :=
  let width := match size with Some w => w | None => 80 end in
  match FormatInt64 total1, FormatInt64 total2 with
  | Some t1, Some t2 =>
      let endSpaceLength := width - 23 - Z.of_nat (String.length t1) in
      let endSpaceLength := if endSpaceLength <? 0 then 0 else endSpaceLength in
      match Repeat " " endSpaceLength with
      | Some endSpace =>
          Some (carriage_return ++ "... scanned " ++ t2 ++ " addresses!" ++ endSpace)%string
      | None => None
      end
  | _, _ => None
  end.

(** *** What a run leaves behind *)

(** The lines a quiet run may write: a pair that was found, the request to
    terminate, a fatal error. *)
Definition quiet_event (e : event) : bool :=
  match e with
  | LogFoundQuiet _ _ | LogWatchdog | LogFatal => true
  | _ => false
  end.

(** The pairs the workers draw in a run and reject. *)
Definition rejected_by (cfg : Config) (l : label) : Z :=
  match l with
  | Worker _ (Gen kp) => if matches (Find cfg) kp then 0 else 1
  | _ => 0
  end.

Definition rejected (cfg : Config) (tr : list label) : Z :=
  fold_right (fun l n => rejected_by cfg l + n) 0 tr.

(** The pairs the workers draw in a run and accept. *)
Definition found_by (cfg : Config) (l : label) : list result :=
  match l with
  | Worker _ (Gen kp) =>
      if matches (Find cfg) kp
      then [{| Address := Address kp; Seed := Seed kp |}]
      else []
  | _ => []
  end.

Definition found (cfg : Config) (tr : list label) : list result :=
  flat_map (found_by cfg) tr.

(** The pairs on their way to the coordinator: at a worker's send, in
    [resultsCh], or received and not yet appended to [results]. *)
Definition holds (w : wstate) : list result :=
  match w with
  | WSend m => [m]
  | _ => []
  end.

Definition in_flight (s : state) : list result :=
  flat_map holds (workers s) ++ resultsCh s
  ++ match coord s with MHandling m => [m] | _ => [] end.

(** *** The deadline and the clock *)

(** Lines 62-83: the values the flags are registered with
    ([gomaxprocs] is [runtime.GOMAXPROCS(0)]).  A flag holds the value it
    was registered with until [config.Parse] has read the command line. *)
Definition registered (gomaxprocs : Z) : Config :=
  {| Find := ""; Cores := gomaxprocs; Output := defaultOutputPath;
     Stop := 60 * 60 * 24; Quiet := false; Every := 30 |}.

(** Line 86, [time.NewTimer] of [time.Second] times the value of the flag
    [cKeyStop]: the seconds the timer is created with, read from the flags
    as they are when the line runs. *)
Definition timer_seconds (current : Config) : Z := Stop current.

(** The process with a clock: the seconds since the timer was created, the
    seconds the timer was created with, and the state of the goroutines. *)
Record timed := {
  clock : Z;
  fires_at : Z;
  proc : state
}.

(** [main] from its first line.  The flags are registered (62-83) and the
    timer is created (86) from the flags as they then are; only afterwards
    does [config.Parse] run (97-107).  [flags] are the values it leaves,
    and the rest of start-up ([start]) runs with them. *)
Definition boot (h : Host) (gomaxprocs : Z) (flags : Config) : Z + Config * timed :=
  let current := registered gomaxprocs in
  let seconds := timer_seconds current in
  match start h flags with
  | inl code => inl code
  | inr (cfg, s) => inr (cfg, {| clock := 0; fires_at := seconds; proc := s |})
  end.

(** Time passes, or the process makes a transition. *)
Inductive tlabel :=
| Elapse (seconds : Z)
| Act (l : label).

(** A transition of the process on the clock: the timer does not fire
    before the seconds it was created with have passed. *)
Definition timed_step (cfg : Config) (tl : tlabel) (t : timed) : option timed :=
  match tl with
  | Elapse d =>
      if (d <? 0) || exited (proc t) then None
      else Some {| clock := clock t + d; fires_at := fires_at t; proc := proc t |}
  | Act l =>
      if match l with TimerFires => clock t <? fires_at t | _ => false end
      then None
      else
        match step cfg l (proc t) with
        | Some s' => Some {| clock := clock t; fires_at := fires_at t; proc := s' |}
        | None => None
        end
  end.

Fixpoint timed_exec (cfg : Config) (ttr : list tlabel) (t : timed) : option timed :=
  match ttr with
  | [] => Some t
  | tl :: ttr' =>
      match timed_step cfg tl t with
      | Some t' => timed_exec cfg ttr' t'
      | None => None
      end
  end.

Definition calm_on_clock (cfg : Config) (ttr : list tlabel) : bool :=
  forallb (fun tl => match tl with
                     | Act l => calm_label cfg l
                     | Elapse _ => true
                     end) ttr.

(** A worker at its [select] or in a search loop. *)
Definition awaiting (w : wstate) : bool :=
  match w with
  | WSelect | WSearch => true
  | _ => false
  end.

(** *** How the process ends *)



End Program.
End Finder.

(** ** Collaborators to run the model with *)

Module Plain.
Import Go Finder.

(** The Unicode tables cut down to ASCII.  On a string of ASCII bytes
    [strings.ToUpper] and [strings.EqualFold] never leave their fast paths
    and every rune is below 128, where the letters are [A-Z] and [a-z] and
    the numbers are [0-9]; the model is run with these tables on such
    strings only. *)
Definition ascii_tables : Unicode :=
  {| IsLetter := fun r => between 65 90 r || between 97 122 r;
     IsNumber := fun r => between 48 57 r;
     upper_map := fun s => s;
     fold_tail := String.eqb |}.

(** The double quote, as a string. *)
Definition dq : string := String (ascii_of_nat 34) EmptyString.

(** [json.Marshal] of a [result] whose strings need no escaping (letters
    and digits, as addresses and seeds are). *)
Definition encode_result (r : result) : string :=
  ("{" ++ dq ++ "address" ++ dq ++ ":" ++ dq ++ Address r ++ dq ++ ","
       ++ dq ++ "seed" ++ dq ++ ":" ++ dq ++ Seed r ++ dq ++ "}")%string.

Definition encode (rs : list result) : string :=
  ("[" ++ String.concat "," (map encode_result rs) ++ "]")%string.

Fixpoint strip (prefix s : string) : option string :=
  match prefix, s with
  | EmptyString, _ => Some s
  | String p prefix', String c s' =>
      if Ascii.eqb p c then strip prefix' s' else None
  | _, _ => None
  end.

(** The characters up to the next double quote, and what follows it; a
    backslash is refused. *)
Fixpoint until_quote (s : string) : option (string * string) :=
  match s with
  | EmptyString => None
  | String c s' =>
      if Ascii.eqb c (ascii_of_nat 34) then Some (EmptyString, s')
      else if Ascii.eqb c (ascii_of_nat 92) then None
      else
        match until_quote s' with
        | Some (v, rest) => Some (String c v, rest)
        | None => None
        end
  end.

Definition decode_result (s : string) : option (result * string) :=
  match strip ("{" ++ dq ++ "address" ++ dq ++ ":" ++ dq)%string s with
  | None => None
  | Some s1 =>
      match until_quote s1 with
      | None => None
      | Some (a, s2) =>
          match strip ("," ++ dq ++ "seed" ++ dq ++ ":" ++ dq)%string s2 with
          | None => None
          | Some s3 =>
              match until_quote s3 with
              | None => None
              | Some (sd, s4) =>
                  match strip "}" s4 with
                  | None => None
                  | Some s5 => Some ({| Address := a; Seed := sd |}, s5)
                  end
              end
          end
      end
  end.

Fixpoint decode_items (fuel : nat) (s : string) : option (list result) :=
  match fuel with
  | O => None
  | S fuel' =>
      match decode_result s with
      | None => None
      | Some (r, rest) =>
          if String.eqb rest "]" then Some [r]
          else
            match strip "," rest with
            | None => None
            | Some rest' =>
                match decode_items fuel' rest' with
                | Some rs => Some (r :: rs)
                | None => None
                end
            end
      end
  end.

(** [json.Unmarshal] into a [[]result], on the documents [encode] writes
    (and [null]); anything else is refused. *)
Definition decode (s : string) : option (list result) :=
  if String.eqb s "null" || String.eqb s "[]" then Some []
  else
    match strip "[" s with
    | None => None
    | Some body => decode_items (String.length s) body
    end.

Definition plain_json : Json := {| Marshal := encode; Unmarshal := decode |}.

(** The address of the README, found with [-find payme]. *)
Definition payme : result :=
  {| Address := "GC4EOY4SUU7QQZCMXVQY7I66KPEP4XFUZP5JXBZLISRB72SHU55PAYME";
     Seed := "SPAYMESEED" |}.

Definition other : result :=
  {| Address := "GDQP2KPQGKIHYJGXNUIYOMHARUARCA7DJT5FO2FFOOKY3B2WSQHG4W37";
     Seed := "SOTHERSEED" |}.

(** A host on which start-up goes through and no output file exists yet. *)
Definition fresh_host : Host :=
  {| user_err := false; parse_err := false; disk0 := None |}.

(** The flags at their defaults but for [-find], [-cores] and [-quiet]. *)
Definition flags_for (find : string) (cores : Z) (quiet : bool) : Config :=
  {| Find := find; Cores := cores; Output := defaultOutputPath;
     Stop := 86400; Quiet := quiet; Every := 30 |}.

(** The operating system answering without any error. *)
Definition sound_io : os_io :=
  {| read_fails := false; open_fails := false; write_res := WriteAll;
     close_fails := false |}.

(** The flags as [start] resolves them. *)
Definition resolved (find : string) (cores : Z) (quiet : bool) : Config :=
  {| Find := find; Cores := cores; Output := "./default.json";
     Stop := 86400; Quiet := quiet; Every := 30 |}.

(** A run with [-cores 1] in which both workers have entered their search
    loops, and the moves that lead there from start-up. *)
Definition two_searching : state := init_state [WSearch; WSearch] None.

Definition enter_search : list label :=
  [Worker 0 (SelDefault other); Worker 1 (SelDefault other)].

(** What follows the firing of the timer in a run that finds nothing: the
    workers go on drawing pairs, the ticker fires, and the coordinator takes
    the [timer.C] case, a report and the [done] case. *)
Definition after_deadline : list label :=
  [Worker 0 (Gen other); TickerFires; Coordinator OnTimer;
   Coordinator OnTick; Worker 1 (Gen other); Coordinator OnDone].

(** A pair is found and sent, the coordinator receives it and is writing
    the file when a signal arrives; the worker, back at its [select], takes
    the signal; the coordinator finishes writing. *)
Definition signal_during_persist : list label :=
  [Worker 0 (SelDefault other); Worker 0 (Gen payme); Worker 0 Send;
   Coordinator OnResult; OsSignal; Worker 0 SelWatchdog;
   Coordinator (Persist sound_io)].

(** [os.ReadFile] fails, everything else succeeds. *)
Definition unreadable_io : os_io :=
  {| read_fails := true; open_fails := false; write_res := WriteAll;
     close_fails := false |}.

(** The coordinator has just received a pair; the file at [-output] holds
    the pair of an earlier run, or something that is not JSON. *)
Definition holding (m : result) (d : option string) : state :=
  {| workers := [WSelect; WSearch]; coord := MHandling m; watchdog := false;
     timer := Armed; ticker := false; done := false; resultsCh := [];
     total := 0; results := []; disk := d;
     console := [LogFound (Address m) (Seed m) 0] |}.

(** The moves that lead there from start-up. *)
Definition find_and_receive (m : result) : list label :=
  enter_search ++ [Worker 0 (Gen m); Worker 0 Send; Coordinator OnResult].

Definition holding_payme : state := holding payme (Some (encode [other])).

Definition holding_payme_broken : state := holding payme (Some "{not json").

(** A whole run with [-cores 1]: both workers enter their search loops,
    worker 0 rejects a pair and finds [payme], which the coordinator
    receives and writes; worker 1 rejects two pairs and finds [payme] too,
    which stays at its send; a progress report; then the timer fires and
    the coordinator leaves. *)
Definition full_run : list label :=
  enter_search
  ++ [Worker 0 (Gen other); Worker 0 (Gen payme); Worker 0 Send;
      Coordinator OnResult; Coordinator (Persist sound_io);
      Worker 1 (Gen other); Worker 1 (Gen other); Worker 1 (Gen payme);
      TickerFires; Coordinator OnTick;
      TimerFires; Coordinator OnTimer; Coordinator OnDone].

(** A run with [-cores -1]: nothing but the ticker and the timer moves. *)
Definition idle_run : list label :=
  [TickerFires; Coordinator OnTick; TimerFires; Coordinator OnTimer].


(** [-stop 1] with a query that no address contains (the digit 0 is not
    in the alphabet of the addresses), [-cores 1]. *)
Definition flags_stop_one : Config :=
  {| Find := "0"; Cores := 1; Output := defaultOutputPath;
     Stop := 1; Quiet := false; Every := 30 |}.

(** The flags as start-up resolves them, and the process as it starts. *)
Definition cfg_stop_one : Config :=
  {| Find := "0"; Cores := 1; Output := "./default.json";
     Stop := 1; Quiet := false; Every := 30 |}.

Definition booted : timed :=
  {| clock := 0; fires_at := 86400;
     proc := init_state [WSelect; WSelect] None |}.

(** Seven seconds of such a run: the workers enter their search loops and
    go on rejecting pairs while the clock runs. *)
Definition seven_seconds : list tlabel :=
  [Act (Worker 0 (SelDefault other)); Act (Worker 1 (SelDefault other));
   Act (Worker 0 (Gen payme)); Elapse 1; Act (Worker 1 (Gen other));
   Elapse 3; Act TickerFires; Act (Coordinator OnTick); Elapse 3;
   Act (Worker 0 (Gen other))].

End Plain.

(** ** Properties of the program *)

Import Go Finder Plain.

(** *** Start-up *)

Section StartUp.
Context {U : Unicode} {J : Json}.

Lemma spawn_loop_length (fuel : nat) :
  forall (i cores : Z) (started : list wstate),
    i <= cores + 1 ->
    (Z.to_nat (cores + 1 - i) < fuel)%nat ->
    List.length (spawn_loop fuel i cores started)
    = (List.length started + Z.to_nat (cores + 1 - i))%nat.
Proof.
  induction fuel as [|fuel IH]; intros i cores started Hi Hfuel; [lia|].
  simpl. destruct (i <=? cores) eqn:E.
  - apply Z.leb_le in E.
    rewrite IH by lia. rewrite length_app. simpl.
    replace (cores + 1 - i) with (Z.succ (cores + 1 - (i + 1))) by lia.
    rewrite Z2Nat.inj_succ by lia. lia.
  - apply Z.leb_gt in E.
    replace (cores + 1 - i) with 0 by lia. simpl. lia.
Qed.

Lemma spawn_workers_length (cores : Z) :
  0 <= cores ->
  List.length (spawn_workers cores) = S (Z.to_nat cores).
Proof.
  intros H. unfold spawn_workers.
  rewrite spawn_loop_length by lia. simpl.
  replace (cores + 1 - 0) with (Z.succ cores) by lia.
  rewrite Z2Nat.inj_succ by lia. reflexivity.
Qed.

Lemma start_running (h : Host) (flags : Config) (cfg : Config) (s : state) :
  start h flags = inr (cfg, s) ->
  isAlphanumeric (Find flags) = true
  /\ cfg = {| Find := Find flags; Cores := Cores flags;
              Output := resolve_output (Find flags) (Output flags);
              Stop := Stop flags; Quiet := Quiet flags; Every := Every flags |}
  /\ s = init_state (spawn_workers (Cores flags)) (disk0 h).
Proof.
  unfold start.
  destruct (user_err h); [discriminate|].
  destruct (parse_err h); [discriminate|].
  destruct (isAlphanumeric (Find flags)); simpl; [|discriminate].
  intros H. injection H as <- <-. auto.
Qed.

(** C4.  The loop that starts the goroutines runs for [i = 0, ..., cores]:
    a run that gets past start-up with [-cores n], [n >= 0], has [n + 1]
    workers, one more than the flag asks for. *)
Theorem start_spawns_cores_plus_one (h : Host) (flags cfg : Config) (s : state) :
  0 <= Cores flags ->
  start h flags = inr (cfg, s) ->
  List.length (workers s) = S (Z.to_nat (Cores flags)).
Proof.
  intros Hc Hs. apply start_running in Hs as (_ & _ & ->).
  simpl. apply spawn_workers_length, Hc.
Qed.

Lemma prefix_output_always (out : string) :
  prefix_output out = ("./" ++ out)%string.
Proof.
  unfold prefix_output. destruct out as [|c out]; [reflexivity|].
  simpl HasPrefix.
  destruct (Ascii.eqb c "/") eqn:E1; [|reflexivity].
  apply Ascii.eqb_eq in E1. subst c. destruct out; reflexivity.
Qed.

Lemma prefixed_is_not_default (out : string) :
  EqualFold ("./" ++ out)%string defaultOutputPath = false.
Proof. reflexivity. Qed.

(** C5.  Whatever [-find] and [-output] are, the path the program writes to
    is [-output] with [./] put before it: the prefix is added to every path,
    so the comparison with [defaultOutputPath] (which is [default.json],
    without the prefix) never succeeds and the name is never made from the
    query.  With [-find stellar] and [-output] left alone the file is
    [./default.json]. *)
Theorem output_path_ignores_query (find out : string) :
  resolve_output find out = ("./" ++ out)%string
  /\ defaultOutputPath = "default.json"
  /\ resolve_output "stellar" defaultOutputPath = "./default.json".
Proof.
  assert (G : forall f o, resolve_output f o = ("./" ++ o)%string).
  { intros f o. unfold resolve_output.
    rewrite prefix_output_always, prefixed_is_not_default. reflexivity. }
  split; [apply G|]. split; [reflexivity|]. rewrite G. reflexivity.
Qed.

Lemma isAlphanumeric_range_false (rs : list rune) :
  Exists (fun r => IsLetter r = false /\ IsNumber r = false) rs ->
  isAlphanumeric_range rs = false.
Proof.
  induction 1 as [r rs [Hl Hn]|r rs _ IH]; simpl.
  - rewrite Hl, Hn. reflexivity.
  - rewrite IH. destruct (negb (IsLetter r) && negb (IsNumber r)); reflexivity.
Qed.

Lemma isAlphanumeric_range_true (rs : list rune) :
  Forall (fun r => IsLetter r = true \/ IsNumber r = true) rs ->
  isAlphanumeric_range rs = true.
Proof.
  induction 1 as [|r rs [H|H] _ IH]; simpl; [reflexivity| |];
    rewrite H, ?andb_false_r; simpl; exact IH.
Qed.

(** C6.  A query with a rune that is neither a letter nor a number ends the
    process with code 1 before the loop that starts the workers is reached
    ([start] answers the code and no state); a query whose runes are all
    letters or numbers passes [isAlphanumeric], and start-up then reaches
    the running state unless [user.Current] or [config.Parse] failed. *)
Theorem non_alphanumeric_query_is_fatal (h : Host) (flags : Config) :
  (Exists (fun r => IsLetter r = false /\ IsNumber r = false) (runes (Find flags)) ->
   isAlphanumeric (Find flags) = false /\ start h flags = inl 1)
  /\ (Forall (fun r => IsLetter r = true \/ IsNumber r = true) (runes (Find flags)) ->
      isAlphanumeric (Find flags) = true
      /\ (user_err h = false -> parse_err h = false ->
          exists cfg, start h flags
                      = inr (cfg, init_state (spawn_workers (Cores flags)) (disk0 h)))).
Proof.
  split; intros H.
  - apply isAlphanumeric_range_false in H. fold (isAlphanumeric (Find flags)) in H.
    split; [exact H|]. unfold start. rewrite H.
    destruct (user_err h), (parse_err h); reflexivity.
  - apply isAlphanumeric_range_true in H. fold (isAlphanumeric (Find flags)) in H.
    split; [exact H|]. intros Hu Hp. unfold start. rewrite Hu, Hp, H. simpl.
    eexists. reflexivity.
Qed.

End StartUp.

Lemma start_spawns_cores_plus_one_witness :
  exists cfg s,
    start (U := ascii_tables) fresh_host (flags_for "stellar" 1 false) = inr (cfg, s)
    /\ List.length (workers s) = 2%nat.
Proof.
  eexists. eexists. split; [reflexivity|].
  eapply (start_spawns_cores_plus_one (U := ascii_tables)
            fresh_host (flags_for "stellar" 1 false));
    [simpl; lia | reflexivity].
Defined.

Lemma non_alphanumeric_query_is_fatal_witness :
  (isAlphanumeric (U := ascii_tables) "ste-llar" = false
   /\ start (U := ascii_tables) fresh_host (flags_for "ste-llar" 4 false) = inl 1)
  /\ (isAlphanumeric (U := ascii_tables) "stellar7" = true
      /\ exists cfg,
          start (U := ascii_tables) fresh_host (flags_for "stellar7" 4 false)
          = inr (cfg, init_state (spawn_workers 4) None)).
Proof.
  split.
  - apply (proj1 (non_alphanumeric_query_is_fatal (U := ascii_tables)
                    fresh_host (flags_for "ste-llar" 4 false))).
    simpl. do 3 apply Exists_cons_tl. apply Exists_cons_hd. split; reflexivity.
  - destruct (proj2 (non_alphanumeric_query_is_fatal (U := ascii_tables)
                       fresh_host (flags_for "stellar7" 4 false))) as [Ha Hs].
    + simpl.
      repeat (apply Forall_cons; [first [left; reflexivity | right; reflexivity]|]).
      apply Forall_nil.
    + split; [exact Ha | apply Hs; reflexivity].
Defined.

(** *** Recording and persisting *)

Section Persist.
Context {U : Unicode} {J : Json}.

Lemma merge_loop_app (onDisk : list result) :
  forall rs, merge_loop onDisk rs = rs ++ onDisk.
Proof.
  induction onDisk as [|r onDisk IH]; intros rs; simpl.
  - symmetry. apply app_nil_r.
  - destruct (scan_results r rs). rewrite IH, <- app_assoc. reflexivity.
Qed.

Lemma merge_disk_app (onDisk rs : list result) :
  merge_disk onDisk rs = rs ++ onDisk.
Proof.
  unfold merge_disk. destruct onDisk as [|r onDisk].
  - simpl. symmetry. apply app_nil_r.
  - change (0 <? List.length (r :: onDisk))%nat with true. cbv iota.
    apply merge_loop_app.
Qed.

Lemma take_all (s : string) : take (String.length s) s = s.
Proof. induction s as [|c s IH]; simpl; [|rewrite IH]; reflexivity. Qed.

Lemma drop_all (new : string) :
  forall old, (String.length old <= String.length new)%nat ->
              drop (String.length new) old = EmptyString.
Proof.
  induction new as [|c new IH]; intros [|c' old] H; simpl in *; try reflexivity.
  - lia.
  - apply IH. lia.
Qed.

Lemma append_empty (s : string) : (s ++ "")%string = s.
Proof. induction s as [|c s IH]; simpl; [|rewrite IH]; reflexivity. Qed.

Lemma write_over_longer (old new : string) :
  (String.length old <= String.length new)%nat -> write_over old new = new.
Proof.
  intros H. unfold write_over. rewrite drop_all by exact H. apply append_empty.
Qed.

(** What is in memory after the pass: the new pair, then every entry of a
    file that could be read and decoded, none left out. *)
Lemma persist_results_read (cfg : Config) (o : os_io) (rs : list result)
    (b : string) (onDisk : list result) (c : list event) (m : result) :
  read_fails o = false ->
  Unmarshal b = Some onDisk ->
  p_results (record_and_persist cfg o rs (Some b) c m) = rs ++ m :: onDisk.
Proof.
  intros Hr Hu. unfold record_and_persist, ReadFile. rewrite Hr, Hu.
  rewrite merge_disk_app, <- app_assoc. simpl.
  destruct (open_fails o); [reflexivity|].
  destruct (write_res o) as [|n [|]]; [| reflexivity |];
    destruct (close_fails o); reflexivity.
Qed.

Lemma persist_sound_io (cfg : Config) (rs : list result) (d : option string)
    (c : list event) (m : result) (rs2 : list result) :
  match ReadFile sound_io d with
  | Some existing =>
      match Unmarshal existing with
      | Some onDisk => Some (merge_disk onDisk (rs ++ [m]))
      | None => None
      end
  | None => Some (rs ++ [m])
  end = Some rs2 ->
  let p := record_and_persist cfg sound_io rs d c m in
  p_verdict p = Continue
  /\ p_results p = rs2
  /\ p_disk p = Some (write_over match d with Some b => b | None => EmptyString end
                        (Marshal rs2)).
Proof.
  intros H. unfold record_and_persist. rewrite H. simpl.
  rewrite take_all. auto.
Qed.

(** C1.  Two pairs found in one run, no file at the start and no error from
    the operating system: after the second pass the first pair is in memory
    twice and the file written is the encoding of that list.  The entry
    read back from the file is appended although its address is already in
    memory, because the [continue] of the duplicate test resumes the inner
    loop and not the outer one. *)
Theorem second_persist_duplicates_first (cfg : Config) (m1 m2 : result) :
  Unmarshal (Marshal [m1]) = Some [m1] ->
  (String.length (Marshal [m1]) <= String.length (Marshal [m1; m2; m1]))%nat ->
  let p1 := record_and_persist cfg sound_io [] None [] m1 in
  let p2 := record_and_persist cfg sound_io
              (p_results p1) (p_disk p1) (p_console p1) m2 in
  p_verdict p1 = Continue /\ p_disk p1 = Some (Marshal [m1])
  /\ p_verdict p2 = Continue
  /\ p_results p2 = [m1; m2; m1]
  /\ p_disk p2 = Some (Marshal [m1; m2; m1])
  /\ (2 <= count_occ string_dec (map Address (p_results p2)) (Address m1))%nat.
Proof.
  intros Hround Hlen p1 p2.
  destruct (persist_sound_io cfg [] None [] m1 [m1] eq_refl) as (V1 & R1 & D1).
  fold p1 in V1, R1, D1.
  assert (D1' : p_disk p1 = Some (Marshal [m1])).
  { rewrite D1. f_equal. apply write_over_longer. simpl. lia. }
  destruct (persist_sound_io cfg (p_results p1) (p_disk p1) (p_console p1) m2
              [m1; m2; m1]) as (V2 & R2 & D2).
  { rewrite D1', R1. unfold ReadFile. simpl. rewrite Hround.
    rewrite merge_disk_app. reflexivity. }
  fold p2 in V2, R2, D2.
  repeat split; try assumption.
  - rewrite D2, D1'. f_equal. apply write_over_longer, Hlen.
  - rewrite R2. simpl. destruct (string_dec (Address m1) (Address m1)) as [_|N];
      [|contradiction].
    destruct (string_dec (Address m2) (Address m1)); lia.
Qed.

Lemma persist_read_error (cfg : Config) (o : os_io)
    (rs : list result) (d : option string) (c : list event) (m : result) :
  let p := record_and_persist cfg o rs d c m in
  (ReadFile o d = None ->
   p_results p = rs ++ [m]
   /\ (p_verdict p = Fatal <->
       open_fails o = true \/ write_errs o = true \/ close_fails o = true)
   /\ (open_fails o = false -> write_res o = WriteAll ->
       p_disk p = Some (write_over match d with Some b => b | None => EmptyString end
                          (Marshal (rs ++ [m])))))
  /\ (forall b, ReadFile o d = Some b -> Unmarshal b = None ->
      p_verdict p = Fatal /\ p_disk p = d /\ p_results p = rs ++ [m]).
Proof.
  intros p. subst p. unfold record_and_persist, write_errs. split.
  - intros ->.
    destruct (open_fails o); simpl.
    { repeat split; auto; discriminate. }
    destruct (write_res o) as [|n [|]]; simpl.
    + rewrite take_all, Nat.eqb_refl. simpl.
      destruct (close_fails o); simpl; repeat split; auto;
        try discriminate; intros [H|[H|H]]; discriminate.
    + repeat split; auto; discriminate.
    + destruct (close_fails o); simpl; repeat split; auto;
        try discriminate; intros [H|[H|H]]; discriminate.
  - intros b -> ->. simpl. auto.
Qed.

Lemma step_persist (cfg : Config) (o : os_io) (s : state) (m : result) :
  coord s = MHandling m ->
  let p := record_and_persist cfg o (results s) (disk s) (console s) m in
  step cfg (Coordinator (Persist o)) s
  = Some (set_coord match p_verdict p with
                    | Continue => MSelect
                    | Fatal => MExited 1
                    end (set_store p s)).
Proof.
  intros Hc p. unfold step, exited, coord_step. rewrite Hc. fold p.
  destruct (p_verdict p); reflexivity.
Qed.

(** C9, as the code has it.  The coordinator has received a pair and goes
    through the rest of the [resultsCh] case.  A read that fails, because
    there is no file or because the file cannot be read, is taken for an
    empty snapshot: the pair is kept in memory, the process exits (code 1)
    exactly when opening, writing or closing fails, and otherwise the file
    is written from what is in memory alone.  A file that is read and does
    not decode ends the process with code 1, the file untouched. *)
Theorem read_error_is_empty_snapshot (cfg : Config) (o : os_io)
    (s : state) (m : result) :
  coord s = MHandling m ->
  exists s',
    step cfg (Coordinator (Persist o)) s = Some s'
    /\ (ReadFile o (disk s) = None ->
        results s' = results s ++ [m]
        /\ (coord s' = MExited 1 <->
            open_fails o = true \/ write_errs o = true \/ close_fails o = true)
        /\ (coord s' = MExited 1 \/ coord s' = MSelect)
        /\ (open_fails o = false -> write_res o = WriteAll ->
            disk s' = Some (write_over
                              match disk s with Some b => b | None => EmptyString end
                              (Marshal (results s ++ [m])))))
    /\ (forall b, ReadFile o (disk s) = Some b -> Unmarshal b = None ->
        coord s' = MExited 1 /\ disk s' = disk s).
Proof.
  intros Hc. eexists. split; [apply step_persist, Hc|].
  destruct (persist_read_error cfg o (results s) (disk s) (console s) m)
    as [Hread Hbad].
  set (p := record_and_persist cfg o (results s) (disk s) (console s) m) in *.
  split.
  - intros Hr. destruct (Hread Hr) as (R & V & D). simpl.
    split; [exact R|]. split; [|split; [|exact D]].
    + rewrite <- V. destruct (p_verdict p); split; intros H;
        try reflexivity; discriminate H.
    + destruct (p_verdict p); auto.
  - intros b Hb Hu. destruct (Hbad b Hb Hu) as (V & D & _). simpl.
    rewrite V. auto.
Qed.

End Persist.

Lemma second_persist_duplicates_first_witness :
  let cfg := flags_for "A" 1 false in
  let p1 := record_and_persist (U := ascii_tables) (J := plain_json)
              cfg sound_io [] None [] payme in
  let p2 := record_and_persist (U := ascii_tables) (J := plain_json) cfg sound_io
              (p_results p1) (p_disk p1) (p_console p1) other in
  p_results p2 = [payme; other; payme]
  /\ p_disk p2 = Some (encode [payme; other; payme]).
Proof.
  intros cfg p1 p2.
  destruct (second_persist_duplicates_first (U := ascii_tables) (J := plain_json)
              cfg payme other) as (_ & _ & _ & R & D & _);
    [reflexivity | vm_compute; lia | split; assumption].
Defined.

(** C9, as the claim has it, fails: the file of an earlier run holds one
    pair, reading it fails and nothing else does.  The process does not
    exit: the coordinator is back at its [select], and the file has been
    overwritten with the pair found now; the earlier one is gone. *)
Lemma unreadable_file_is_overwritten :
  match step (U := ascii_tables) (J := plain_json) (resolved "payme" 1 false)
          (Coordinator (Persist unreadable_io)) holding_payme with
  | Some s' =>
      disk holding_payme = Some (encode [other])
      /\ coord s' = MSelect
      /\ exited s' = false
      /\ results s' = [payme]
      /\ disk s' = Some (encode [payme])
  | None => False
  end.
Proof. vm_compute. repeat split. Qed.

Lemma read_error_is_empty_snapshot_witness :
  (exists s',
     step (U := ascii_tables) (J := plain_json) (resolved "payme" 1 false)
       (Coordinator (Persist unreadable_io)) holding_payme = Some s'
     /\ results s' = [payme] /\ coord s' = MSelect)
  /\ (exists s',
        step (U := ascii_tables) (J := plain_json) (resolved "payme" 1 false)
          (Coordinator (Persist sound_io)) holding_payme_broken = Some s'
        /\ coord s' = MExited 1 /\ disk s' = Some "{not json").
Proof.
  split.
  - destruct (read_error_is_empty_snapshot (U := ascii_tables) (J := plain_json)
                (resolved "payme" 1 false) unreadable_io holding_payme payme
                eq_refl) as (s' & E & Hread & _).
    exists s'. split; [exact E|].
    destruct (Hread eq_refl) as (R & V & [X|X] & _).
    + apply V in X. vm_compute in X. destruct X as [X|[X|X]]; discriminate X.
    + split; [exact R | exact X].
  - destruct (read_error_is_empty_snapshot (U := ascii_tables) (J := plain_json)
                (resolved "payme" 1 false) sound_io holding_payme_broken payme
                eq_refl) as (s' & E & _ & Hbad).
    exists s'. split; [exact E|].
    apply (Hbad "{not json"); reflexivity.
Defined.

(** *** The workers *)

(** The states the examples start from are states of the program: start-up
    with [-cores 1] gives two workers at their [select], and the moves
    listed lead from there to [two_searching] and to [holding]. *)
Lemma example_states_reached :
  start (U := ascii_tables) fresh_host (flags_for "payme" 1 false)
  = inr (resolved "payme" 1 false, init_state [WSelect; WSelect] None)
  /\ exec (U := ascii_tables) (J := plain_json) (resolved "payme" 1 false)
       enter_search (init_state [WSelect; WSelect] None) = Some two_searching
  /\ exec (U := ascii_tables) (J := plain_json) (resolved "payme" 1 false)
       (find_and_receive payme)
       (init_state [WSelect; WSelect] (Some (encode [other])))
     = Some holding_payme.
Proof. vm_compute. repeat split. Qed.

Section Workers.
Context {U : Unicode} {J : Json}.

Lemma exec_app (cfg : Config) (tr1 tr2 : list label) :
  forall s, exec cfg (tr1 ++ tr2) s
            = match exec cfg tr1 s with
              | Some s1 => exec cfg tr2 s1
              | None => None
              end.
Proof.
  induction tr1 as [|l tr1 IH]; intros s; simpl; [reflexivity|].
  destruct (step cfg l s); [apply IH | reflexivity].
Qed.

Lemma nth_error_set_nth (ws : list wstate) :
  forall (i : nat) (w0 w : wstate),
    nth_error ws i = Some w0 -> nth_error (set_nth i w ws) i = Some w.
Proof.
  induction ws as [|x ws IH]; intros [|i] w0 w H; simpl in *;
    try discriminate; [reflexivity | eapply IH, H].
Qed.

(** In quiet mode no transition changes [total]. *)
Lemma step_quiet_total (cfg : Config) (l : label) (s s' : state) :
  Quiet cfg = true -> step cfg l s = Some s' -> total s' = total s.
Proof.
  intros Hq H. unfold step, worker_step, coord_step in H. rewrite Hq in H.
  repeat match type of H with
         | context [match ?x with _ => _ end] => destruct x eqn:?
         end;
    try discriminate H; injection H as <-; reflexivity.
Qed.

Lemma exec_quiet_total (cfg : Config) (tr : list label) :
  forall s s', Quiet cfg = true -> exec cfg tr s = Some s' -> total s' = total s.
Proof.
  induction tr as [|l tr IH]; intros s s' Hq H; simpl in H.
  - injection H as <-. reflexivity.
  - destruct (step cfg l s) as [s1|] eqn:E; [|discriminate].
    rewrite (IH _ _ Hq H). eapply step_quiet_total; eassumption.
Qed.

(** C7.  A run started with [-quiet] keeps [total] at 0, whatever the
    workers, the coordinator and the environment do and however many pairs
    are drawn and rejected. *)
Theorem quiet_run_keeps_total_zero (h : Host) (flags cfg : Config)
    (s0 : state) (tr : list label) (s' : state) :
  Quiet flags = true ->
  start h flags = inr (cfg, s0) ->
  exec cfg tr s0 = Some s' ->
  total s' = 0.
Proof.
  intros Hq Hs He. apply start_running in Hs as (_ & -> & ->).
  apply exec_quiet_total in He; [|exact Hq]. exact He.
Qed.

Lemma step_gen_found (cfg : Config) (s : state) (i : nat) (kp : result) :
  exited s = false ->
  nth_error (workers s) i = Some WSearch ->
  matches (Find cfg) kp = true ->
  exists found,
    step cfg (Worker i (Gen kp)) s
    = Some (set_worker i (WSend {| Address := Address kp; Seed := Seed kp |})
              (log [found] s)).
Proof.
  intros Hex Hw Hm. unfold step, worker_step. rewrite Hex, Hw, Hm.
  eexists. reflexivity.
Qed.

Lemma step_send (cfg : Config) (s : state) (i : nat) (m : result) :
  exited s = false ->
  nth_error (workers s) i = Some (WSend m) ->
  (List.length (resultsCh s) < resultsCh_cap)%nat ->
  step cfg (Worker i Send) s
  = Some (set_worker i WSelect (set_resultsCh (resultsCh s ++ [m]) s)).
Proof.
  intros Hex Hw Hcap. unfold step, worker_step. rewrite Hex, Hw.
  apply Nat.ltb_lt in Hcap. rewrite Hcap. reflexivity.
Qed.

Lemma step_default (cfg : Config) (s : state) (i : nat) (kp : result) :
  exited s = false ->
  nth_error (workers s) i = Some WSelect ->
  watchdog s = false ->
  timer_ready s = false ->
  step cfg (Worker i (SelDefault kp)) s = Some (set_worker i WSearch s).
Proof.
  intros Hex Hw Hwd Ht. unfold step, worker_step. rewrite Hex, Hw, Hwd, Ht.
  reflexivity.
Qed.

(** C8, as the code has it.  A worker in a search loop draws a pair.  When
    the address contains the query put in upper case, the pair goes to
    [resultsCh] as a [result] with that address and seed, and the worker is
    back at its [select], from where [default] takes it into a search loop
    again unless a signal or the timer's value is waiting.  When it does
    not, nothing is sent and the worker stays in the loop. *)
Theorem worker_tests_address_against_upper_query (cfg : Config) (s : state)
    (i : nat) (kp : result) :
  exited s = false ->
  nth_error (workers s) i = Some WSearch ->
  (List.length (resultsCh s) < resultsCh_cap)%nat ->
  (Contains (Address kp) (ToUpper (Find cfg)) = true ->
   exists s1,
     exec cfg [Worker i (Gen kp); Worker i Send] s = Some s1
     /\ resultsCh s1 = resultsCh s ++ [{| Address := Address kp; Seed := Seed kp |}]
     /\ nth_error (workers s1) i = Some WSelect
     /\ (watchdog s = false -> timer_ready s = false ->
         forall kp', exists s2,
           step cfg (Worker i (SelDefault kp')) s1 = Some s2
           /\ nth_error (workers s2) i = Some WSearch))
  /\ (Contains (Address kp) (ToUpper (Find cfg)) = false ->
      exists s1,
        step cfg (Worker i (Gen kp)) s = Some s1
        /\ resultsCh s1 = resultsCh s
        /\ nth_error (workers s1) i = Some WSearch).
Proof.
  intros Hex Hw Hcap. split; intros Hm.
  - destruct (step_gen_found cfg s i kp Hex Hw Hm) as [found S1].
    set (m := {| Address := Address kp; Seed := Seed kp |}) in *.
    set (s1 := set_worker i (WSend m) (log [found] s)) in *.
    assert (Hw1 : nth_error (workers s1) i = Some (WSend m))
      by (eapply nth_error_set_nth, Hw).
    pose proof (step_send cfg s1 i m Hex Hw1 Hcap) as S2.
    set (s2 := set_worker i WSelect _) in S2.
    assert (Hw2 : nth_error (workers s2) i = Some WSelect)
      by (eapply nth_error_set_nth, Hw1).
    exists s2. cbn [exec]. rewrite S1, S2.
    split; [reflexivity|]. split; [reflexivity|]. split; [exact Hw2|].
    intros Hwd Ht kp'.
    exists (set_worker i WSearch s2). split.
    + apply step_default; assumption.
    + eapply nth_error_set_nth, Hw2.
  - unfold step, worker_step. rewrite Hex, Hw. unfold matches. rewrite Hm.
    destruct (Quiet cfg); eexists; (split; [reflexivity|]); split;
      try reflexivity; exact Hw.
Qed.

(** C10.  The empty query passes [isAlphanumeric], start-up goes through
    with it, every pair passes the test of the search loops, and a worker
    in a search loop hands the pair it draws to the send. *)
Theorem empty_query_matches_every_pair (kp : result) :
  isAlphanumeric "" = true
  /\ (forall h flags, Find flags = "" -> user_err h = false -> parse_err h = false ->
      exists cfg s, start h flags = inr (cfg, s) /\ Find cfg = "")
  /\ matches "" kp = true
  /\ (forall cfg s i, Find cfg = "" -> exited s = false ->
      nth_error (workers s) i = Some WSearch ->
      exists s1, step cfg (Worker i (Gen kp)) s = Some s1
                 /\ nth_error (workers s1) i
                    = Some (WSend {| Address := Address kp; Seed := Seed kp |})).
Proof.
  assert (Hm : matches "" kp = true).
  { unfold matches, ToUpper. simpl. destruct (Address kp); reflexivity. }
  split; [reflexivity|]. split; [|split; [exact Hm|]].
  - intros h flags Hf Hu Hp. unfold start. rewrite Hu, Hp, Hf. simpl.
    eexists. eexists. split; reflexivity.
  - intros cfg s i Hf Hex Hw. unfold step, worker_step.
    rewrite Hex, Hw, Hf, Hm. eexists. split; [reflexivity|].
    simpl. eapply nth_error_set_nth, Hw.
Qed.

End Workers.

Lemma quiet_run_keeps_total_zero_witness :
  exists s',
    exec (U := ascii_tables) (J := plain_json) (resolved "payme" 1 true)
      (enter_search ++ [Worker 0 (Gen other); Worker 1 (Gen other);
                        Worker 0 (Gen other); TickerFires; Coordinator OnTick])
      (init_state [WSelect; WSelect] None) = Some s'
    /\ total s' = 0.
Proof.
  eexists. split; [reflexivity|].
  apply (quiet_run_keeps_total_zero (U := ascii_tables) (J := plain_json)
           fresh_host (flags_for "payme" 1 true) (resolved "payme" 1 true)
           (init_state [WSelect; WSelect] None)
           (enter_search ++ [Worker 0 (Gen other); Worker 1 (Gen other);
                             Worker 0 (Gen other); TickerFires; Coordinator OnTick]));
    reflexivity.
Defined.

(** C8, as the claim has it, fails on the README's own search: the query
    [payme] is valid, the address put in upper case does not contain it,
    and yet the worker sends the pair. *)
Lemma lower_case_query_finds_upper_case_address :
  isAlphanumeric (U := ascii_tables) "payme" = true
  /\ Contains (ToUpper (U := ascii_tables) (Address payme)) "payme" = false
  /\ matches (U := ascii_tables) "payme" payme = true
  /\ exists s1,
       exec (U := ascii_tables) (J := plain_json) (resolved "payme" 1 true)
         [Worker 0 (Gen payme); Worker 0 Send] two_searching = Some s1
       /\ resultsCh s1 = [payme].
Proof.
  repeat split; try reflexivity. eexists. split; reflexivity.
Qed.

Lemma worker_tests_address_against_upper_query_witness :
  exists s1,
    exec (U := ascii_tables) (J := plain_json) (resolved "payme" 1 true)
      [Worker 0 (Gen payme); Worker 0 Send] two_searching = Some s1
    /\ resultsCh s1 = [payme]
    /\ nth_error (workers s1) 0 = Some WSelect.
Proof.
  destruct (proj1 (worker_tests_address_against_upper_query
                     (U := ascii_tables) (J := plain_json)
                     (resolved "payme" 1 true) two_searching 0%nat payme
                     eq_refl eq_refl ltac:(vm_compute; lia)) eq_refl)
    as (s1 & E & Q & W & _).
  exists s1. repeat split; assumption.
Defined.

Lemma empty_query_matches_every_pair_witness :
  exists s1,
    step (U := ascii_tables) (J := plain_json) (resolved "" 1 true)
      (Worker 1 (Gen other)) two_searching = Some s1
    /\ nth_error (workers s1) 1 = Some (WSend other).
Proof.
  apply (proj2 (proj2 (proj2 (empty_query_matches_every_pair
                                (U := ascii_tables) (J := plain_json) other)))
           (resolved "" 1 true) two_searching 1%nat);
    reflexivity.
Defined.

(** *** The coordinator *)

Section Coordinator.
Context {U : Unicode} {J : Json}.

(** The [watchdog] case of the coordinator: once the coordinator receives
    the signal it logs the request and the process exits with code 1,
    whatever is waiting in [resultsCh], which is neither read nor
    written to the file. *)
Lemma coordinator_exits_on_signal (cfg : Config) (s : state) :
  coord s = MSelect ->
  watchdog s = true ->
  exists s',
    step cfg (Coordinator OnWatchdog) s = Some s'
    /\ coord s' = MExited 1
    /\ console s' = console s ++ [LogWatchdog]
    /\ resultsCh s' = resultsCh s
    /\ results s' = results s
    /\ disk s' = disk s.
Proof.
  intros Hc Hw. unfold step, exited, coord_step. rewrite Hc, Hw.
  eexists. repeat split.
Qed.

Lemma in_search_nth (ws : list wstate) (i : nat) (w : wstate) :
  forallb in_search ws = true -> nth_error ws i = Some w -> in_search w = true.
Proof.
  intros H Hn. rewrite forallb_forall in H. apply H.
  eapply nth_error_In, Hn.
Qed.

Lemma leaving_step (cfg : Config) (s0 s s' : state) (l : label) :
  leaving s0 s ->
  calm_label cfg l = true ->
  step cfg l s = Some s' ->
  leaving s0 s' /\ way_out s' = (way_out s + coord_move l)%nat.
Proof.
  intros (Hws & Hwd & Hq & Hd & Hr & Hph) Hcalm H.
  unfold step in H. destruct (exited s) eqn:Hex; [discriminate|].
  assert (Hc : coord s = MSelect).
  { destruct Hph as [(C & _)|[(C & _)|C]]; try exact C.
    unfold exited in Hex. rewrite C in Hex. discriminate. }
  assert (Hph' : (timer s = Fired /\ done s = false)
                 \/ (timer s = Spent /\ done s = true)).
  { destruct Hph as [(_ & C)|[(_ & C)|C]]; auto.
    rewrite C in Hc. discriminate. }
  unfold leaving, way_out, timer_ready.
  destruct l as [| | |i mv|mv]; simpl in Hcalm.
  - discriminate.
  - destruct Hph' as [[T _]|[T _]]; rewrite T in H; discriminate.
  - injection H as <-. simpl. rewrite Hc.
    repeat split; try assumption; try lia.
    destruct Hph' as [[T D]|[T D]]; rewrite T, D; auto.
  - unfold worker_step in H.
    destruct (nth_error (workers s) i) as [w|] eqn:Hn; [|discriminate].
    pose proof (in_search_nth _ _ _ Hws Hn) as Hw.
    destruct w; try discriminate Hw; destruct mv; try discriminate H.
    rewrite negb_true_iff in Hcalm. rewrite Hcalm in H.
    destruct (Quiet cfg); injection H as <-; simpl; rewrite Hc;
      (repeat split; try assumption; try lia);
      destruct Hph' as [[T D]|[T D]]; rewrite T, D; auto.
  - unfold coord_step in H. rewrite Hc in H.
    destruct mv; try discriminate H.
    + destruct (ticker s); [|discriminate]. injection H as <-. simpl.
      rewrite Hc. repeat split; try assumption; try lia.
      destruct Hph' as [[T D]|[T D]]; rewrite T, D; auto.
    + rewrite Hwd in H. discriminate.
    + unfold timer_ready in H.
      destruct Hph' as [[T D]|[T D]]; rewrite T in H; [|discriminate].
      simpl in H. rewrite D in H. injection H as <-. simpl.
      rewrite Hc, T, D. repeat split; try assumption; auto.
    + destruct Hph' as [[T D]|[T D]]; rewrite D in H; [discriminate|].
      injection H as <-. simpl. rewrite Hc, D.
      repeat split; try assumption; auto.
    + rewrite Hq in H. discriminate.
Qed.

Lemma leaving_exec (cfg : Config) (s0 : state) (tr : list label) :
  forall s s',
    leaving s0 s ->
    calm cfg tr = true ->
    exec cfg tr s = Some s' ->
    leaving s0 s' /\ way_out s' = (way_out s + coord_moves tr)%nat.
Proof.
  induction tr as [|l tr IH]; intros s s' Hl Hcalm H; simpl in *.
  - injection H as <-. split; [exact Hl | unfold coord_moves; simpl; lia].
  - apply andb_true_iff in Hcalm as [Hc1 Hc2].
    destruct (step cfg l s) as [s1|] eqn:E; [|discriminate].
    destruct (leaving_step cfg s0 s s1 l Hl Hc1 E) as [Hl1 W1].
    destruct (IH s1 s' Hl1 Hc2 H) as [Hl' W'].
    split; [exact Hl'|]. rewrite W', W1. unfold coord_moves. simpl. lia.
Qed.

Lemma searching_fires (cfg : Config) (s : state) :
  searching s = true ->
  step cfg TimerFires s = Some (set_timer Fired s)
  /\ leaving s (set_timer Fired s)
  /\ way_out (set_timer Fired s) = 1%nat.
Proof.
  unfold searching. rewrite !andb_true_iff.
  intros (((((Hws & Hc) & Hwd) & Ht) & Hd) & Hq).
  destruct (coord s) eqn:C; try discriminate.
  destruct (timer s) eqn:T; try discriminate.
  destruct (resultsCh s) eqn:Q; try discriminate.
  apply negb_true_iff in Hwd, Hd.
  unfold step, exited. rewrite C, T. split; [reflexivity|].
  unfold leaving, way_out, timer_ready. simpl. rewrite C, Hd.
  repeat split; auto.
Qed.

(** What the deadline does once the timer has fired, whenever that is.  The
    timer fires in a run in which every worker is in its search
    loop, and from then on no pair passes the test and no signal arrives.
    Whatever the interleaving, the file and the list in memory stay as they
    were; the coordinator is either gone with code 0 or at its [select] with
    its next step towards the exit enabled; two moves of the coordinator
    (the [timer.C] case, then the [done] case), progress reports aside, are
    all it takes, and the run that makes them at once ends with code 0. *)
Theorem deadline_ends_run_with_code_zero (cfg : Config) (s : state)
    (post : list label) (s' : state) :
  searching s = true ->
  calm cfg post = true ->
  exec cfg (TimerFires :: post) s = Some s' ->
  disk s' = disk s /\ results s' = results s
  /\ way_out s' = (1 + coord_moves post)%nat
  /\ (coord s' = MExited 0
      \/ (coord s' = MSelect
          /\ exists mv s'', coord_move (Coordinator mv) = 1%nat
                            /\ step cfg (Coordinator mv) s' = Some s''
                            /\ way_out s'' = S (way_out s')))
  /\ ((2 <= coord_moves post)%nat -> coord s' = MExited 0)
  /\ (exists s2,
        exec cfg [TimerFires; Coordinator OnTimer; Coordinator OnDone] s = Some s2
        /\ coord s2 = MExited 0 /\ disk s2 = disk s /\ results s2 = results s).
Proof.
  intros Hs Hcalm H.
  destruct (searching_fires cfg s Hs) as (F & L1 & W1).
  cbn [exec] in H. rewrite F in H.
  destruct (leaving_exec cfg s post _ _ L1 Hcalm H) as [L' W'].
  rewrite W1 in W'.
  destruct L' as (Hws & Hwd & Hq & Hd & Hr & Hph).
  split; [exact Hd|]. split; [exact Hr|]. split; [exact W'|].
  split; [|split].
  - destruct Hph as [(C & T & D)|[(C & T & D)|C]]; [right|right|left; exact C].
    + split; [exact C|]. exists OnTimer. eexists. split; [reflexivity|].
      unfold step, exited, coord_step, timer_ready. rewrite C, T. simpl.
      rewrite D. split; [reflexivity|].
      unfold way_out, timer_ready. simpl. rewrite C, T, D. reflexivity.
    + split; [exact C|]. exists OnDone. eexists. split; [reflexivity|].
      unfold step, exited, coord_step. rewrite C, D.
      split; [reflexivity|].
      unfold way_out. simpl. rewrite C, D. reflexivity.
  - intros H2.
    destruct Hph as [(C & T & D)|[(C & T & D)|C]]; [| |exact C];
      unfold way_out, timer_ready in W'; rewrite C, ?T, D in W'; lia.
  - clear - Hs. unfold searching in Hs.
    destruct s as [ws co wd ti tk dn rq tot rs dk cs]. simpl in Hs.
    destruct co; try (rewrite !andb_false_r in Hs; discriminate Hs).
    destruct ti; try (rewrite !andb_false_r in Hs; discriminate Hs).
    destruct dn; try (rewrite !andb_false_r in Hs; discriminate Hs).
    eexists. split; [reflexivity|]. repeat split.
Qed.

End Coordinator.

(** The workers must be in their search loops for that: [timer.C] carries
    one value, and a worker still at its [select] when the timer fires can
    receive it (line 156).  It returns, and the coordinator is left with
    neither the [timer.C] case nor the [done] case to take. *)
Lemma timer_value_taken_by_worker :
  match exec (U := ascii_tables) (J := plain_json) (resolved "payme" 1 false)
          [TimerFires; Worker 0 SelTimer] (init_state [WSelect; WSelect] None) with
  | Some s' =>
      coord s' = MSelect /\ timer s' = Spent /\ done s' = false
      /\ step (U := ascii_tables) (J := plain_json) (resolved "payme" 1 false)
           (Coordinator OnTimer) s' = None
      /\ step (U := ascii_tables) (J := plain_json) (resolved "payme" 1 false)
           (Coordinator OnDone) s' = None
  | None => False
  end.
Proof. vm_compute. repeat split. Qed.

Lemma deadline_ends_run_with_code_zero_witness :
  exists s',
    exec (U := ascii_tables) (J := plain_json) (resolved "payme" 1 false)
      (TimerFires :: after_deadline) two_searching = Some s'
    /\ coord s' = MExited 0 /\ disk s' = disk two_searching.
Proof.
  destruct (exec (U := ascii_tables) (J := plain_json) (resolved "payme" 1 false)
              (TimerFires :: after_deadline) two_searching) as [s'|] eqn:E.
  - exists s'. split; [reflexivity|].
    destruct (deadline_ends_run_with_code_zero (U := ascii_tables) (J := plain_json)
                (resolved "payme" 1 false) two_searching after_deadline s'
                ltac:(vm_compute; reflexivity) ltac:(vm_compute; reflexivity) E)
      as (D & _ & _ & _ & X & _).
    split; [apply X; vm_compute; lia | exact D].
  - vm_compute in E. discriminate E.
Defined.

(** C3 at work on the defaults ([-find] empty, so every pair passes) with
    [-cores 1]: the signal arrives while the coordinator is writing the file
    of a pair, the worker that sent the pair is back at its [select] and
    receives the signal, and returns.  The coordinator finishes the file and
    waits at its [select]: the signal is gone, nothing was logged about it,
    the [watchdog] case cannot be taken and the process has not exited. *)
Theorem signal_taken_by_worker_is_lost :
  match exec (U := ascii_tables) (J := plain_json) (resolved "" 1 true)
          signal_during_persist (init_state [WSelect; WSelect] None) with
  | Some s' =>
      coord s' = MSelect
      /\ exited s' = false
      /\ watchdog s' = false
      /\ ~ In LogWatchdog (console s')
      /\ nth_error (workers s') 0 = Some WReturned
      /\ results s' = [payme]
      /\ step (U := ascii_tables) (J := plain_json) (resolved "" 1 true)
           (Coordinator OnWatchdog) s' = None
  | None => False
  end.
Proof.
  vm_compute. repeat split. intros [H|[]]. discriminate H.
Qed.

(** *** Formatting the count *)

Section Formatting.

Lemma digits_of_uint (d : Decimal.uint) :
  Forall is_digit (list_ascii_of_string (NilEmpty.string_of_uint d)).
Proof.
  induction d; simpl; constructor; try assumption; split;
    try reflexivity; discriminate.
Qed.

(** The decimal string: digits, at least one, after the sign if any. *)
Lemma FormatInt_shape (n : Z) :
  exists ds,
    ds <> []
    /\ Forall is_digit ds
    /\ list_ascii_of_string (FormatInt n)
       = if n <? 0 then "-"%char :: ds else ds.
Proof.
  unfold FormatInt. destruct n as [|p|p]; simpl.
  - exists ["0"%char]. repeat split; try discriminate.
    repeat constructor. discriminate.
  - exists (list_ascii_of_string (NilZero.string_of_uint (Pos.to_uint p))).
    repeat split.
    + unfold NilZero.string_of_uint. destruct (Pos.to_uint p); discriminate.
    + unfold NilZero.string_of_uint. pose proof (digits_of_uint (Pos.to_uint p)) as H.
      destruct (Pos.to_uint p); try exact H. repeat constructor. discriminate.
  - exists (list_ascii_of_string (NilZero.string_of_uint (Pos.to_uint p))).
    repeat split.
    + unfold NilZero.string_of_uint. destruct (Pos.to_uint p); discriminate.
    + unfold NilZero.string_of_uint. pose proof (digits_of_uint (Pos.to_uint p)) as H.
      destruct (Pos.to_uint p); try exact H. repeat constructor. discriminate.
Qed.

Lemma at_index_middle (l1 l2 : list ascii) (c : ascii) :
  at_index (l1 ++ c :: l2) (Z.of_nat (List.length l1)) = Some c.
Proof.
  unfold at_index. destruct (Z.of_nat (List.length l1) <? 0) eqn:E;
    [apply Z.ltb_lt in E; lia|].
  rewrite Nat2Z.id. rewrite nth_error_app2 by lia.
  rewrite Nat.sub_diag. reflexivity.
Qed.

Lemma store_nat_middle (l1 l2 : list ascii) (x c : ascii) :
  store_nat (l1 ++ x :: l2) (List.length l1) c = Some (l1 ++ c :: l2).
Proof.
  induction l1 as [|y l1 IH]; simpl; [reflexivity|]. rewrite IH. reflexivity.
Qed.

Lemma store_middle (l1 l2 : list ascii) (x c : ascii) (j : Z) :
  j = Z.of_nat (List.length l1) ->
  store (l1 ++ x :: l2) j c = Some (l1 ++ c :: l2).
Proof.
  intros ->. unfold store.
  destruct (Z.of_nat (List.length l1) <? 0) eqn:E; [apply Z.ltb_lt in E; lia|].
  rewrite Nat2Z.id. apply store_nat_middle.
Qed.

Lemma written_two (k : nat) (c r : ascii) (rest : list ascii) :
  written k (c :: r :: rest)
  = if Nat.eqb (S k) 3 then written 0 (r :: rest) ++ [","%char; c]
    else written (S k) (r :: rest) ++ [c].
Proof. reflexivity. Qed.

Lemma written_length (rd : list ascii) :
  forall k, rd <> [] -> (k < 3)%nat ->
    Z.of_nat (List.length (written k rd))
    = Z.of_nat (List.length rd) + (Z.of_nat (List.length rd) - 1 + Z.of_nat k) / 3.
Proof.
  induction rd as [|c rest IH]; intros k Hne Hk; [contradiction|].
  destruct rest as [|r rest].
  - simpl. replace (1 - 1 + Z.of_nat k) with (Z.of_nat k) by lia.
    rewrite Z.div_small by lia. reflexivity.
  - rewrite written_two.
    assert (Hr : r :: rest <> []) by discriminate.
    change (List.length (c :: r :: rest)) with (S (List.length (r :: rest))).
    rewrite Nat2Z.inj_succ.
    destruct (Nat.eqb (S k) 3) eqn:E.
    + apply Nat.eqb_eq in E. rewrite length_app, Nat2Z.inj_add.
      rewrite (IH 0%nat Hr) by lia.
      change (List.length [","%char; c]) with 2%nat.
      set (L := Z.of_nat (List.length (r :: rest))).
      assert (1 <= L) by (subst L; simpl List.length; lia).
      assert (Z.of_nat k = 2) as -> by lia.
      change (Z.of_nat 0) with 0. change (Z.of_nat 2) with 2.
      clearbody L. Z.div_mod_to_equations. lia.
    + apply Nat.eqb_neq in E. rewrite length_app, Nat2Z.inj_add.
      rewrite (IH (S k) Hr) by lia.
      change (List.length [c]) with 1%nat.
      rewrite Nat2Z.inj_succ.
      set (L := Z.of_nat (List.length (r :: rest))).
      set (K := Z.of_nat k).
      change (Z.of_nat 1) with 1.
      clearbody L K. Z.div_mod_to_equations. lia.
Qed.

Lemma split_last (pre : list ascii) (n : nat) :
  List.length pre = S n ->
  exists pre' x, pre = pre' ++ [x] /\ List.length pre' = n.
Proof.
  intros H. destruct (exists_last (l := pre)) as (pre' & x & ->).
  { intros ->. discriminate H. }
  exists pre', x. split; [reflexivity|].
  rewrite length_app in H. simpl in H. lia.
Qed.

(** The loop writes [written k rd] just before what is already there, and
    never indexes outside [inp] or [out], when [out] has exactly the room
    for it after [off] leading bytes. *)
Lemma loop_written (rd : list ascii) :
  forall (k : nat) (hi pre acc : list ascii) (fuel off : nat),
    rd <> [] ->
    (k < 3)%nat ->
    List.length pre = (off + List.length (written k rd))%nat ->
    (List.length rd <= fuel)%nat ->
    FormatInt64_loop fuel (rev rd ++ hi) (slen rd - 1) (slen pre - 1)
      (Z.of_nat k) (pre ++ acc)
    = Some (firstn off pre ++ written k rd ++ acc).
Proof.
  induction rd as [|c rest IH]; intros k hi pre acc fuel off Hne Hk Hpre Hfuel;
    [contradiction|].
  destruct fuel as [|fuel]; [simpl in Hfuel; lia|].
  cbn [FormatInt64_loop].
  assert (Hin : rev (c :: rest) ++ hi = rev rest ++ c :: hi)
    by (simpl; rewrite <- app_assoc; reflexivity).
  rewrite Hin.
  replace (slen (c :: rest) - 1) with (Z.of_nat (List.length (rev rest)))
    by (unfold slen; rewrite length_rev; simpl List.length; lia).
  rewrite at_index_middle. rewrite length_rev.
  destruct rest as [|r rest].
  - simpl in Hpre.
    destruct (split_last pre off) as (pre' & x & -> & Hl); [lia|].
    rewrite <- app_assoc. simpl app.
    rewrite (store_middle pre' acc x c)
      by (unfold slen; rewrite length_app; simpl; lia).
    simpl. rewrite firstn_app, Hl, Nat.sub_diag, firstn_all2 by lia.
    simpl. rewrite app_nil_r. reflexivity.
  - assert (Hr : r :: rest <> []) by discriminate.
    rewrite written_two in *.
    assert (Hlen : List.length (r :: rest) = S (List.length rest)) by reflexivity.
    assert (Hfuel' : (List.length (r :: rest) <= fuel)%nat)
      by (simpl in Hfuel; simpl; lia).
    remember (r :: rest) as rd2 eqn:Hrd2. clear Hfuel Hin Hne.
    replace (Z.of_nat (List.length rd2) =? 0) with false
      by (symmetry; apply Z.eqb_neq; lia).
    destruct (Nat.eqb (S k) 3) eqn:E.
    + apply Nat.eqb_eq in E.
      replace (Z.of_nat k + 1 =? 3) with true by (symmetry; apply Z.eqb_eq; lia).
      rewrite length_app in Hpre. cbn [List.length] in Hpre.
      destruct (split_last pre (off + List.length (written 0 rd2) + 1))
        as (pre1 & x & -> & Hl1); [lia|].
      destruct (split_last pre1 (off + List.length (written 0 rd2)))
        as (pre2 & y & -> & Hl2); [lia|].
      replace (((pre2 ++ [y]) ++ [x]) ++ acc) with ((pre2 ++ [y]) ++ x :: acc)
        by (rewrite <- !app_assoc; reflexivity).
      rewrite (store_middle (pre2 ++ [y]) acc x c)
        by (unfold slen; rewrite !length_app; cbn [List.length]; lia).
      replace ((pre2 ++ [y]) ++ c :: acc) with (pre2 ++ y :: c :: acc)
        by (rewrite <- app_assoc; reflexivity).
      rewrite (store_middle pre2 (c :: acc) y ","%char)
        by (unfold slen; rewrite !length_app; cbn [List.length]; lia).
      replace (Z.of_nat (List.length rd2) - 1) with (slen rd2 - 1) by reflexivity.
      replace (slen ((pre2 ++ [y]) ++ [x]) - 1 - 1 - 1) with (slen pre2 - 1)
        by (unfold slen; rewrite !length_app; cbn [List.length]; lia).
      change 0 with (Z.of_nat 0).
      rewrite (IH 0%nat (c :: hi) pre2 (","%char :: c :: acc) fuel off Hr)
        by lia.
      f_equal. rewrite !firstn_app.
      replace (off - List.length pre2)%nat with 0%nat by lia.
      replace (off - List.length (pre2 ++ [y]))%nat with 0%nat
        by (rewrite length_app; lia).
      cbn [firstn]. rewrite !app_nil_r, <- !app_assoc. reflexivity.
    + apply Nat.eqb_neq in E.
      replace (Z.of_nat k + 1 =? 3) with false by (symmetry; apply Z.eqb_neq; lia).
      rewrite length_app in Hpre. cbn [List.length] in Hpre.
      destruct (split_last pre (off + List.length (written (S k) rd2)))
        as (pre1 & x & -> & Hl1); [lia|].
      replace ((pre1 ++ [x]) ++ acc) with (pre1 ++ x :: acc)
        by (rewrite <- app_assoc; reflexivity).
      rewrite (store_middle pre1 acc x c)
        by (unfold slen; rewrite !length_app; cbn [List.length]; lia).
      replace (Z.of_nat (List.length rd2) - 1) with (slen rd2 - 1) by reflexivity.
      replace (slen (pre1 ++ [x]) - 1 - 1) with (slen pre1 - 1)
        by (unfold slen; rewrite !length_app; cbn [List.length]; lia).
      replace (Z.of_nat k + 1) with (Z.of_nat (S k)) by lia.
      rewrite (IH (S k) (c :: hi) pre1 (c :: acc) fuel off Hr) by lia.
      f_equal. rewrite firstn_app.
      replace (off - List.length pre1)%nat with 0%nat by lia.
      cbn [firstn]. rewrite !app_nil_r, <- !app_assoc. reflexivity.
Qed.

Lemma store_head (n : nat) (c : ascii) :
  store (repeat zero (S n)) 0 c = Some (c :: repeat zero n).
Proof. reflexivity. Qed.

(** [FormatInt64] returns, and what it returns is the sign, if any, and
    what the loop writes for the digits. *)
Lemma FormatInt64_written (n : Z) :
  exists ds,
    ds <> []
    /\ Forall is_digit ds
    /\ list_ascii_of_string (FormatInt n) = (if n <? 0 then "-"%char :: ds else ds)
    /\ FormatInt64 n
       = Some (string_of_list_ascii
                 (if n <? 0 then "-"%char :: written 0 (rev ds)
                  else written 0 (rev ds))).
Proof.
  destruct (FormatInt_shape n) as (ds & Hne & Hd & Hs).
  exists ds. split; [exact Hne|]. split; [exact Hd|]. split; [exact Hs|].
  assert (Hrne : rev ds <> []).
  { intros E. apply Hne. rewrite <- (rev_involutive ds), E. reflexivity. }
  pose proof (written_length (rev ds) 0 Hrne ltac:(lia)) as Hw.
  rewrite length_rev in Hw. change (Z.of_nat 0) with 0 in Hw.
  rewrite Z.add_0_r in Hw.
  assert (Hpos : 1 <= Z.of_nat (List.length ds)).
  { destruct ds; [contradiction|]. simpl List.length. lia. }
  unfold FormatInt64. rewrite Hs.
  destruct (n <? 0).
  - replace (slen ("-"%char :: ds) - 1) with (Z.of_nat (List.length ds))
      by (unfold slen; simpl List.length; lia).
    rewrite Z.quot_div_nonneg by lia.
    replace (slen ("-"%char :: ds) + (Z.of_nat (List.length ds) - 1) / 3)
      with (Z.of_nat (S (List.length (written 0 (rev ds)))))
      by (unfold slen; simpl List.length; lia).
    replace (Z.of_nat (S (List.length (written 0 (rev ds)))) <? 0) with false
      by (symmetry; apply Z.ltb_ge; lia).
    rewrite Nat2Z.id, store_head.
    pose proof (loop_written (rev ds) 0 [] ("-"%char :: repeat zero
                  (List.length (written 0 (rev ds)))) []
                  (List.length ds) 1 Hrne ltac:(lia)) as L.
    rewrite rev_involutive, !app_nil_r in L.
    unfold slen in *. rewrite length_rev in L.
    cbn [List.length] in L. rewrite repeat_length in L.
    change (Z.of_nat 0) with 0 in L.
    cbn [List.length]. rewrite repeat_length.
    rewrite L by lia. reflexivity.
  - rewrite Z.quot_div_nonneg by (unfold slen; lia).
    replace (slen ds + (slen ds - 1) / 3)
      with (Z.of_nat (List.length (written 0 (rev ds))))
      by (unfold slen; lia).
    replace (Z.of_nat (List.length (written 0 (rev ds))) <? 0) with false
      by (symmetry; apply Z.ltb_ge; lia).
    rewrite Nat2Z.id.
    pose proof (loop_written (rev ds) 0 [] (repeat zero
                  (List.length (written 0 (rev ds)))) []
                  (List.length ds) 0 Hrne ltac:(lia)) as L.
    rewrite rev_involutive, !app_nil_r in L.
    unfold slen in *. rewrite length_rev in L.
    rewrite repeat_length in L.
    change (Z.of_nat 0) with 0 in L.
    rewrite repeat_length.
    rewrite L by lia. reflexivity.
Qed.

Lemma length_string_of_list (l : list ascii) :
  String.length (string_of_list_ascii l) = List.length l.
Proof. induction l as [|c l IH]; simpl; [|rewrite IH]; reflexivity. Qed.

(** X1.  [FormatInt64] never panics: for every number it returns a string,
    as long as the decimal string plus one byte for every full group of
    three digits that has a digit before it. *)
Theorem FormatInt64_returns (n : Z) :
  exists s,
    FormatInt64 n = Some s
    /\ Z.of_nat (String.length s)
       = let digits := Z.of_nat (String.length (FormatInt n))
                       - (if n <? 0 then 1 else 0) in
         Z.of_nat (String.length (FormatInt n)) + (digits - 1) / 3.
Proof.
  destruct (FormatInt64_written n) as (ds & Hne & _ & Hs & Hf).
  eexists. split; [exact Hf|].
  assert (Hrne : rev ds <> []).
  { intros E. apply Hne. rewrite <- (rev_involutive ds), E. reflexivity. }
  pose proof (written_length (rev ds) 0 Hrne ltac:(lia)) as Hw.
  rewrite length_rev in Hw. change (Z.of_nat 0) with 0 in Hw.
  rewrite Z.add_0_r in Hw.
  rewrite <- (string_of_list_ascii_of_string (FormatInt n)), Hs.
  rewrite !length_string_of_list.
  cbv zeta. set (L := Z.of_nat (List.length ds)) in *.
  destruct (n <? 0); cbn [List.length]; rewrite ?Nat2Z.inj_succ; fold L.
  - rewrite Hw. replace (Z.succ L - 1 - 1) with (L - 1) by lia. lia.
  - rewrite Hw. replace (L - 0 - 1) with (L - 1) by lia. lia.
Qed.

Lemma written_without_commas (rd : list ascii) :
  forall k, Forall is_digit rd -> filter not_comma (written k rd) = rev rd.
Proof.
  induction rd as [|c rest IH]; intros k H; [reflexivity|].
  inversion H as [|? ? [Hc _] Hrest]; subst.
  destruct rest as [|r rest].
  - simpl. rewrite Hc. reflexivity.
  - rewrite written_two.
    change (rev (c :: r :: rest)) with (rev (r :: rest) ++ [c]).
    destruct (Nat.eqb (S k) 3); rewrite filter_app, (IH _ Hrest);
      simpl; rewrite Hc; reflexivity.
Qed.

(** X2.  Taking the commas out of what [FormatInt64] returns gives back the
    decimal string of [strconv.FormatInt]: no digit is lost, added or
    moved, and the sign stays in front. *)
Theorem FormatInt64_without_commas (n : Z) :
  option_map (fun s => string_of_list_ascii
                         (filter not_comma (list_ascii_of_string s)))
    (FormatInt64 n)
  = Some (FormatInt n).
Proof.
  destruct (FormatInt64_written n) as (ds & _ & Hd & Hs & ->).
  simpl. f_equal. rewrite list_ascii_of_string_of_list_ascii.
  rewrite <- (string_of_list_ascii_of_string (FormatInt n)), Hs.
  f_equal.
  assert (Hr : Forall is_digit (rev ds))
    by (apply Forall_forall; intros x Hx; apply in_rev in Hx;
        revert x Hx; apply Forall_forall, Hd).
  destruct (n <? 0); simpl; rewrite (written_without_commas _ _ Hr),
    rev_involutive; reflexivity.
Qed.

Lemma written_grouped (n : nat) :
  forall rd, (List.length rd <= n)%nat -> written 0 rd = rev (group_rev rd).
Proof.
  induction n as [|n IH]; intros rd H.
  - destruct rd; [reflexivity | simpl in H; lia].
  - destruct rd as [|a [|b [|c [|d rest]]]]; try reflexivity.
    change (group_rev (a :: b :: c :: d :: rest))
      with (a :: b :: c :: ","%char :: group_rev (d :: rest)).
    change (written 0 (a :: b :: c :: d :: rest))
      with (((written 0 (d :: rest) ++ [","%char; c]) ++ [b]) ++ [a]).
    rewrite (IH (d :: rest)) by (simpl in *; lia).
    simpl rev. rewrite <- !app_assoc. reflexivity.
Qed.

(** X3.  What [FormatInt64] returns is the decimal string with a comma
    before every group of three digits counted from the right, the sign
    kept in front: numbers of up to three digits come back unchanged. *)
Theorem FormatInt64_groups_by_three (n : Z) :
  FormatInt64 n
  = Some (string_of_list_ascii
            match list_ascii_of_string (FormatInt n) with
            | sign :: digits =>
                if n <? 0 then sign :: grouped digits
                else grouped (sign :: digits)
            | [] => []
            end)
  /\ ((-1000 < n < 1000) -> FormatInt64 n = Some (FormatInt n)).
Proof.
  destruct (FormatInt64_written n) as (ds & Hne & _ & Hs & Hf).
  assert (G : FormatInt64 n
              = Some (string_of_list_ascii
                        match list_ascii_of_string (FormatInt n) with
                        | sign :: digits =>
                            if n <? 0 then sign :: grouped digits
                            else grouped (sign :: digits)
                        | [] => []
                        end)).
  { rewrite Hf, Hs. unfold grouped. destruct (n <? 0).
    - rewrite <- (written_grouped (List.length (rev ds)) (rev ds)) by lia.
      reflexivity.
    - destruct ds as [|d0 ds']; [contradiction|].
      rewrite <- (written_grouped (List.length (rev (d0 :: ds'))) (rev (d0 :: ds')))
        by lia.
      reflexivity. }
  split; [exact G|].
  intros Hn. rewrite G. f_equal.
  rewrite <- (string_of_list_ascii_of_string (FormatInt n)) at 2. f_equal.
  assert (Hsmall : forall x, 0 <= x < 1000 ->
            (List.length (list_ascii_of_string
               (NilZero.string_of_int (Z.to_int x))) <= 3)%nat).
  { intros x Hx.
    assert (B : forallb (fun y => (List.length (list_ascii_of_string
                   (NilZero.string_of_int (Z.to_int y))) <=? 3)%nat)
                  (map Z.of_nat (seq 0 1000)) = true)
      by (vm_compute; reflexivity).
    rewrite forallb_forall in B. apply Nat.leb_le, B.
    apply in_map_iff. exists (Z.to_nat x). split; [lia|].
    apply in_seq. lia. }
  assert (Hg : forall l : list ascii, (List.length l <= 3)%nat -> grouped l = l).
  { intros [|a [|b [|c [|d rest]]]] Hl; try reflexivity. simpl in Hl. lia. }
  unfold FormatInt in *.
  destruct n as [|p|p].
  - reflexivity.
  - specialize (Hsmall (Z.pos p) ltac:(lia)).
    change (Z.pos p <? 0) with false. cbv iota.
    rewrite <- (Hg _ Hsmall) at 2.
    destruct (list_ascii_of_string _); reflexivity.
  - specialize (Hsmall (Z.pos p) ltac:(lia)).
    change (Z.neg p <? 0) with true. cbv iota.
    simpl Z.to_int in *. simpl NilZero.string_of_int in *.
    cbn [list_ascii_of_string]. rewrite (Hg _ Hsmall). reflexivity.
Qed.

End Formatting.

(** *** The progress report *)

Section Report.

Lemma length_append (s t : string) :
  String.length (s ++ t)%string = (String.length s + String.length t)%nat.
Proof. induction s as [|c s IH]; simpl; [|rewrite IH]; reflexivity. Qed.

Lemma length_spaces (n : nat) :
  String.length (String.concat "" (repeat " " n)) = n.
Proof.
  induction n as [|n IH]; [reflexivity|].
  destruct n as [|n]; [reflexivity|].
  change (S (String.length (String.concat "" (repeat " " (S n)))) = S (S n)).
  f_equal. exact IH.
Qed.

Lemma Repeat_space (count : Z) :
  0 <= count ->
  exists pad, Repeat " " count = Some pad
              /\ Z.of_nat (String.length pad) = count.
Proof.
  intros H. unfold Repeat.
  replace (count <? 0) with false by (symmetry; apply Z.ltb_ge; exact H).
  eexists. split; [reflexivity|].
  rewrite length_spaces. apply Z2Nat.id, H.
Qed.

(** X4.  The progress report never panics, whatever width the terminal
    reports (none, zero or negative included) and whatever the counter
    holds: the count handed to [strings.Repeat] is never negative.  After
    the carriage return the line has the 23 characters of the fixed text,
    the formatted counter, and the padding computed from the first reading
    of the counter; when both readings have the same length it fills the
    width exactly, or exceeds it when the text alone is wider. *)
Theorem progress_line_fills_width (size : option Z) (total1 total2 : Z) :
  exists t1 t2 line,
    FormatInt64 total1 = Some t1
    /\ FormatInt64 total2 = Some t2
    /\ progress_line size total1 total2 = Some line
    /\ let width := match size with Some w => w | None => 80 end in
       let l1 := Z.of_nat (String.length t1) in
       let l2 := Z.of_nat (String.length t2) in
       Z.of_nat (String.length line) - 1 = 23 + l2 + Z.max 0 (width - 23 - l1)
       /\ (l1 = l2 -> Z.of_nat (String.length line) - 1 = Z.max width (23 + l2)).
Proof.
  destruct (FormatInt64_written total1) as (ds1 & _ & _ & _ & F1).
  destruct (FormatInt64_written total2) as (ds2 & _ & _ & _ & F2).
  set (t1 := string_of_list_ascii _) in F1.
  set (t2 := string_of_list_ascii _) in F2.
  set (width := match size with Some w => w | None => 80 end).
  set (pad := width - 23 - Z.of_nat (String.length t1)).
  destruct (Repeat_space (if pad <? 0 then 0 else pad)) as (sp & R & Hsp).
  { destruct (pad <? 0) eqn:E; [lia | apply Z.ltb_ge in E; exact E]. }
  exists t1, t2. eexists.
  split; [exact F1|]. split; [exact F2|].
  unfold progress_line. rewrite F1, F2. fold width. fold pad. rewrite R.
  split; [reflexivity|]. cbv zeta.
  rewrite !length_append. simpl String.length.
  assert (Hmax : Z.of_nat (String.length sp) = Z.max 0 pad).
  { rewrite Hsp. destruct (pad <? 0) eqn:E;
      [apply Z.ltb_lt in E | apply Z.ltb_ge in E]; lia. }
  split; [|intros Heq]; lia.
Qed.

End Report.

(** *** More on recording and persisting *)

Section PersistMore.
Context {U : Unicode} {J : Json}.

Lemma persist_results_shape (cfg : Config) (o : os_io) (rs : list result)
    (d : option string) (c : list event) (m : result) :
  let p := record_and_persist cfg o rs d c m in
  (exists more, p_results p = rs ++ m :: more)
  /\ (forall b onDisk, ReadFile o d = Some b -> Unmarshal b = Some onDisk ->
      p_results p = rs ++ m :: onDisk)
  /\ (ReadFile o d = None -> p_results p = rs ++ [m]).
Proof.
  intros p. subst p.
  assert (G : forall tail,
             match ReadFile o d with
             | Some existing =>
                 match Unmarshal existing with
                 | Some onDisk => Some (merge_disk onDisk (rs ++ [m]))
                 | None => None
                 end
             | None => Some (rs ++ [m])
             end = Some (rs ++ m :: tail) ->
             p_results (record_and_persist cfg o rs d c m) = rs ++ m :: tail).
  { intros tail H. unfold record_and_persist. rewrite H.
    destruct (open_fails o); [reflexivity|].
    destruct (write_res o) as [|n [|]]; [| reflexivity |];
      destruct (close_fails o); reflexivity. }
  assert (E : forall l, (rs ++ [m]) ++ l = rs ++ m :: l)
    by (intros l; rewrite <- app_assoc; reflexivity).
  split; [|split].
  - destruct (ReadFile o d) as [b|] eqn:R.
    + destruct (Unmarshal b) as [onDisk|] eqn:Un.
      * exists onDisk. apply G. rewrite merge_disk_app, E. reflexivity.
      * exists []. unfold record_and_persist. rewrite R, Un. reflexivity.
    + exists []. apply G. reflexivity.
  - intros b onDisk R Un. apply G. rewrite R, Un, merge_disk_app, E. reflexivity.
  - intros R. apply (G []). rewrite R. reflexivity.
Qed.

(** X5.  The list in memory only grows, at its end: after a pass, however
    it ends, it starts with what it held, followed by the new pair; and
    when the file was read and decoded, what follows is every entry of the
    file, in the file's order, duplicates included. *)
Theorem persist_appends_only (cfg : Config) (o : os_io) (rs : list result)
    (d : option string) (c : list event) (m : result) :
  let p := record_and_persist cfg o rs d c m in
  (exists more, p_results p = rs ++ m :: more)
  /\ (forall b onDisk, ReadFile o d = Some b -> Unmarshal b = Some onDisk ->
      p_results p = rs ++ m :: onDisk)
  /\ (ReadFile o d = None -> p_results p = rs ++ [m]).
Proof. exact (persist_results_shape cfg o rs d c m). Qed.

Lemma persist_continue_file (cfg : Config) (o : os_io) (rs : list result)
    (d : option string) (c : list event) (m : result) :
  let p := record_and_persist cfg o rs d c m in
  p_verdict p = Continue ->
  exists written_bytes,
    p_disk p = Some (write_over match d with Some b => b | None => EmptyString end
                       written_bytes)
    /\ (write_res o = WriteAll -> written_bytes = Marshal (p_results p)).
Proof.
  intros p. subst p. unfold record_and_persist.
  destruct (match ReadFile o d with
            | Some existing => _
            | None => _
            end) as [rs2|]; [|discriminate].
  destruct (open_fails o); [discriminate|].
  destruct (write_res o) as [|n [|]]; [| discriminate |];
    (destruct (close_fails o); [discriminate|]); intros _; simpl;
    eexists; (split; [reflexivity|]).
  - intros _. apply take_all.
  - discriminate.
Qed.

(** X6.  Two passes in a row, the second reading back what the first
    wrote: the second leaves in memory the list of the first, the new
    pair, and the list of the first once more, so the list more than
    doubles with every pair found. *)
Theorem next_pass_doubles (cfg : Config) (o1 o2 : os_io) (rs : list result)
    (d : option string) (c : list event) (m1 m2 : result) :
  let p1 := record_and_persist cfg o1 rs d c m1 in
  let p2 := record_and_persist cfg o2 (p_results p1) (p_disk p1) (p_console p1) m2 in
  p_verdict p1 = Continue ->
  read_fails o2 = false ->
  (forall b, p_disk p1 = Some b -> Unmarshal b = Some (p_results p1)) ->
  p_results p2 = p_results p1 ++ m2 :: p_results p1
  /\ List.length (p_results p2) = (2 * List.length (p_results p1) + 1)%nat.
Proof.
  intros p1 p2 V R Hround.
  destruct (persist_continue_file cfg o1 rs d c m1 V) as (w & D & _).
  fold p1 in D.
  destruct (persist_results_shape cfg o2 (p_results p1) (p_disk p1)
              (p_console p1) m2) as (_ & H & _).
  fold p2 in H.
  assert (E : p_results p2 = p_results p1 ++ m2 :: p_results p1).
  { eapply H.
    - unfold ReadFile. rewrite R. exact D.
    - apply Hround, D. }
  split; [exact E|]. rewrite E, length_app. simpl. lia.
Qed.

Lemma length_drop (n : nat) :
  forall s, String.length (drop n s) = (String.length s - n)%nat.
Proof.
  induction n as [|n IH]; intros [|c s]; simpl; try reflexivity. apply IH.
Qed.

(** X7.  The file is opened without truncation and written from its start.
    After a pass that goes through with a complete write, the file begins
    with the encoding of the list in memory and is as long as the longer
    of the encoding and the old content: it is the encoding exactly when
    the old content was not longer, and otherwise the end of the old
    content is still there behind it. *)
Theorem write_keeps_old_tail (cfg : Config) (o : os_io) (rs : list result)
    (old : string) (c : list event) (m : result) :
  let p := record_and_persist cfg o rs (Some old) c m in
  let new := Marshal (p_results p) in
  p_verdict p = Continue ->
  write_res o = WriteAll ->
  exists file,
    p_disk p = Some file
    /\ file = (new ++ drop (String.length new) old)%string
    /\ String.length file = Nat.max (String.length old) (String.length new)
    /\ ((String.length old <= String.length new)%nat -> file = new)
    /\ ((String.length new < String.length old)%nat -> file <> new).
Proof.
  intros p new V W.
  destruct (persist_continue_file cfg o rs (Some old) c m V) as (w & D & Hw).
  fold p in D, Hw. rewrite (Hw W) in D. fold new in D.
  exists (write_over old new). split; [exact D|]. split; [reflexivity|].
  unfold write_over. split; [|split].
  - rewrite length_append, length_drop. lia.
  - intros H. apply write_over_longer, H.
  - intros H E. apply (f_equal String.length) in E.
    rewrite length_append, length_drop in E. lia.
Qed.

End PersistMore.

(** *** Runs of the whole process *)

Section Runs.
Context {U : Unicode} {J : Json}.

Ltac split_step H :=
  repeat match type of H with
         | context [match ?x with _ => _ end] => destruct x eqn:?
         end;
  try discriminate H; try (injection H as <-).

Lemma exec_invariant (cfg : Config) (P : state -> Prop) :
  (forall l s s', P s -> step cfg l s = Some s' -> P s') ->
  forall tr s s', P s -> exec cfg tr s = Some s' -> P s'.
Proof.
  intros Hstep. induction tr as [|l tr IH]; intros s s' HP H; simpl in H.
  - injection H as <-. exact HP.
  - destruct (step cfg l s) as [s1|] eqn:E; [|discriminate].
    eapply IH; [|exact H]. eapply Hstep; eassumption.
Qed.

Lemma persist_console_quiet (cfg : Config) (o : os_io) (rs : list result)
    (d : option string) (c : list event) (m : result) :
  Quiet cfg = true ->
  let p := record_and_persist cfg o rs d c m in
  p_console p = c \/ p_console p = c ++ [LogFatal].
Proof.
  intros Hq p. subst p. unfold record_and_persist, fatal, say. rewrite Hq.
  destruct (match ReadFile o d with
            | Some existing => _
            | None => _
            end) as [rs2|]; [|right; reflexivity].
  destruct (open_fails o); [right; reflexivity|].
  destruct (write_res o) as [|n [|]]; [| right; reflexivity |];
    destruct (negb _); destruct (close_fails o); simpl;
    rewrite ?app_nil_r; auto.
Qed.

Lemma quiet_step_console (cfg : Config) (l : label) (s s' : state) :
  Quiet cfg = true ->
  forallb quiet_event (console s) = true ->
  step cfg l s = Some s' ->
  forallb quiet_event (console s') = true.
Proof.
  intros Hq HP H. unfold step in H.
  destruct (exited s); [discriminate|].
  destruct l as [| | |i mv|mv].
  - injection H as <-. exact HP.
  - split_step H. exact HP.
  - injection H as <-. exact HP.
  - unfold worker_step in H. rewrite Hq in H. cbn [negb] in H.
    split_step H; simpl; rewrite ?forallb_app, ?HP; reflexivity.
  - unfold coord_step, say in H. rewrite Hq in H.
    destruct (coord s) eqn:C; destruct mv; try discriminate H.
    + split_step H. simpl. rewrite app_nil_r. exact HP.
    + split_step H. simpl. rewrite forallb_app, HP. reflexivity.
    + split_step H; simpl; rewrite app_nil_r; exact HP.
    + split_step H. simpl. rewrite app_nil_r. exact HP.
    + split_step H. exact HP.
    + pose proof (persist_console_quiet cfg o (results s) (disk s) (console s) m Hq)
        as Hc.
      split_step H; simpl; destruct Hc as [-> | ->];
        rewrite ?forallb_app, ?HP; reflexivity.
Qed.

(** X8.  A run started with [-quiet] writes nothing but the lines of the
    pairs it finds (address and seed), the line of a termination request
    and fatal errors: no progress report, no [Saved], no [Timer reached
    limit], no [Finished running]. *)
Theorem quiet_run_console (h : Host) (flags cfg : Config) (s0 : state)
    (tr : list label) (s' : state) :
  Quiet flags = true ->
  start h flags = inr (cfg, s0) ->
  exec cfg tr s0 = Some s' ->
  forallb quiet_event (console s') = true
  /\ (forall e, In e (console s') ->
      e = LogWatchdog \/ e = LogFatal
      \/ exists address seed, e = LogFoundQuiet address seed).
Proof.
  intros Hq Hs He. apply start_running in Hs as (_ & Hcfg & ->).
  assert (Hq' : Quiet cfg = true) by (rewrite Hcfg; exact Hq).
  assert (B : forallb quiet_event (console s') = true).
  { refine (exec_invariant cfg (fun s => forallb quiet_event (console s) = true)
              _ tr _ s' _ He); [|reflexivity].
    intros l s s1 HP H. exact (quiet_step_console cfg l s s1 Hq' HP H). }
  split; [exact B|]. intros e He'.
  rewrite forallb_forall in B. specialize (B e He').
  destruct e; try discriminate B; eauto.
Qed.

Lemma rejected_by_range (cfg : Config) (l : label) :
  0 <= rejected_by cfg l <= 1.
Proof.
  destruct l as [| | |i [| | |kp|]|]; simpl; try lia.
  destruct (matches (Find cfg) kp); lia.
Qed.

Lemma rejected_nonneg (cfg : Config) (tr : list label) : 0 <= rejected cfg tr.
Proof.
  induction tr as [|l tr IH]; simpl; [lia|].
  pose proof (rejected_by_range cfg l). lia.
Qed.

Lemma add_int64_small (x : Z) :
  - 2 ^ 63 <= x -> x + 1 < 2 ^ 63 -> add_int64 x 1 = x + 1.
Proof.
  intros H1 H2. unfold add_int64. rewrite Z.mod_small; lia.
Qed.

Lemma counting_step (cfg : Config) (l : label) (s s' : state) :
  Quiet cfg = false ->
  step cfg l s = Some s' ->
  total s' = if rejected_by cfg l =? 1 then add_int64 (total s) 1 else total s.
Proof.
  intros Hq H. unfold step in H.
  destruct (exited s); [discriminate|].
  destruct l as [| | |i mv|mv].
  - injection H as <-. reflexivity.
  - split_step H. reflexivity.
  - injection H as <-. reflexivity.
  - unfold worker_step in H. rewrite Hq in H. cbn [negb] in H.
    destruct (nth_error (workers s) i) as [[| | |]|]; destruct mv;
      try discriminate H; simpl.
    + split_step H. reflexivity.
    + split_step H. reflexivity.
    + split_step H. reflexivity.
    + destruct (matches (Find cfg) kp); injection H as <-; reflexivity.
    + split_step H. reflexivity.
  - unfold coord_step in H.
    destruct (coord s) eqn:C; destruct mv; try discriminate H;
      split_step H; reflexivity.
Qed.

Lemma counting_exec (cfg : Config) (tr : list label) :
  forall s s',
    Quiet cfg = false ->
    exec cfg tr s = Some s' ->
    - 2 ^ 63 <= total s ->
    total s + rejected cfg tr < 2 ^ 63 ->
    total s' = total s + rejected cfg tr.
Proof.
  induction tr as [|l tr IH]; intros s s' Hq H Hlo Hhi; simpl in *.
  - injection H as <-. lia.
  - destruct (step cfg l s) as [s1|] eqn:E; [|discriminate].
    pose proof (counting_step cfg l s s1 Hq E) as T.
    pose proof (rejected_by_range cfg l) as R.
    pose proof (rejected_nonneg cfg tr) as N.
    destruct (rejected_by cfg l =? 1) eqn:B.
    + apply Z.eqb_eq in B. rewrite add_int64_small in T by lia.
      rewrite (IH s1 s' Hq H) by lia. lia.
    + apply Z.eqb_neq in B. rewrite (IH s1 s' Hq H) by lia. lia.
Qed.

(** X9.  Without [-quiet] the counter counts the rejected pairs and nothing
    else: at any point of a run it holds the number of pairs the workers
    have drawn and rejected so far (below 2^63, where the [int64] wraps). *)
Theorem total_counts_rejected (h : Host) (flags cfg : Config) (s0 : state)
    (tr : list label) (s' : state) :
  Quiet flags = false ->
  start h flags = inr (cfg, s0) ->
  exec cfg tr s0 = Some s' ->
  rejected cfg tr < 2 ^ 63 ->
  total s' = rejected cfg tr.
Proof.
  intros Hq Hs He Hr. apply start_running in Hs as (_ & Hcfg & ->).
  assert (Hq' : Quiet cfg = false) by (rewrite Hcfg; exact Hq).
  rewrite (counting_exec cfg tr _ s' Hq' He); simpl; lia.
Qed.

Lemma shutdown_step (cfg : Config) (l : label) (s s' : state) :
  ((done s = true -> timer s = Spent)
   /\ coord s <> MBlocked
   /\ (forall c, coord s = MExited c -> c = 1 \/ (c = 0 /\ timer s = Spent))) ->
  step cfg l s = Some s' ->
  (done s' = true -> timer s' = Spent)
  /\ coord s' <> MBlocked
  /\ (forall c, coord s' = MExited c -> c = 1 \/ (c = 0 /\ timer s' = Spent)).
Proof.
  intros (Hd & Hb & Hx) H. unfold step in H.
  destruct (exited s); [discriminate|].
  destruct l as [| | |i mv|mv].
  - injection H as <-. simpl. auto.
  - destruct (timer s) eqn:T; try discriminate H. injection H as <-. simpl.
    split; [|split]; auto.
    + intros D. specialize (Hd D). discriminate Hd.
    + intros c C. destruct (Hx c C) as [->|[-> X]]; [auto | discriminate X].
  - injection H as <-. simpl. auto.
  - unfold worker_step, timer_ready in H.
    destruct (nth_error (workers s) i) as [[| | |]|]; destruct mv;
      try discriminate H.
    + destruct (watchdog s); [|discriminate]. injection H as <-. simpl. auto.
    + destruct (timer s) eqn:T; try discriminate H. injection H as <-. simpl.
      split; [|split]; auto.
      intros c C. destruct (Hx c C) as [->|[-> _]]; auto.
    + destruct (watchdog s || _); [discriminate|]. injection H as <-. simpl. auto.
    + destruct (matches (Find cfg) kp); [injection H as <-; simpl; auto|].
      destruct (Quiet cfg); injection H as <-; simpl; auto.
    + destruct (_ <? _)%nat; [|discriminate]. injection H as <-. simpl. auto.
  - unfold coord_step, timer_ready in H.
    destruct (coord s) eqn:C; destruct mv; try discriminate H.
    + destruct (ticker s); [|discriminate]. injection H as <-. simpl.
      rewrite C. repeat split; auto; discriminate.
    + destruct (watchdog s); [|discriminate]. injection H as <-. simpl.
      repeat split; auto; try discriminate.
      intros c E. injection E as <-. auto.
    + destruct (timer s) eqn:T; try discriminate H. simpl in H.
      destruct (done s) eqn:D.
      * specialize (Hd eq_refl). discriminate Hd.
      * injection H as <-. simpl. rewrite C. repeat split; auto; discriminate.
    + destruct (done s) eqn:D; [|discriminate]. injection H as <-. simpl.
      repeat split; auto; try discriminate.
      intros c E. injection E as <-. auto.
    + destruct (resultsCh s); [discriminate|]. injection H as <-. simpl.
      repeat split; auto; discriminate.
    + destruct (p_verdict _); injection H as <-; simpl;
        repeat split; auto; try discriminate.
      intros c E. injection E as <-. auto.
Qed.

Lemma timer_fired_in_run (cfg : Config) (tr : list label) :
  forall s s',
    timer s = Armed ->
    exec cfg tr s = Some s' ->
    timer s' <> Armed ->
    In TimerFires tr.
Proof.
  induction tr as [|l tr IH]; intros s s' T H N; simpl in H.
  - injection H as <-. contradiction.
  - destruct (step cfg l s) as [s1|] eqn:E; [|discriminate].
    destruct l as [| | |i mv|mv]; try (left; reflexivity); right;
      apply (IH s1 s'); try assumption; unfold step in E;
      (destruct (exited s); [discriminate|]).
    + injection E as <-. exact T.
    + injection E as <-. exact T.
    + unfold worker_step, timer_ready in E. rewrite T in E.
      destruct (nth_error (workers s) i) as [[| | |]|]; destruct mv;
        try discriminate E; split_step E; exact T.
    + unfold coord_step, timer_ready in E. rewrite T in E.
      destruct (coord s); destruct mv; try discriminate E;
        split_step E; exact T.
Qed.

(** X10.  The coordinator never blocks on [done <- struct{}{}]: the timer
    delivers one value, whoever receives it, so the channel of capacity 1
    is empty whenever the coordinator takes the [timer.C] case. *)
Theorem coordinator_never_blocks (h : Host) (flags cfg : Config) (s0 : state)
    (tr : list label) (s' : state) :
  start h flags = inr (cfg, s0) ->
  exec cfg tr s0 = Some s' ->
  coord s' <> MBlocked /\ (done s' = true -> timer s' = Spent).
Proof.
  intros Hs He. apply start_running in Hs as (_ & _ & ->).
  refine ((fun X => conj (proj1 (proj2 X)) (proj1 X))
            (exec_invariant cfg _ (shutdown_step cfg) tr _ s' _ He)).
  simpl. repeat split; discriminate.
Qed.

(** The coordinator leaves through [os.Exit(1)] or [log.Fatal] (code 1) or
    by returning from its loop (code 0), and it returns only after the
    timer has fired and it has received the timer's value: finding a pair
    never ends the run. *)
Theorem exit_zero_only_after_deadline (h : Host) (flags cfg : Config)
    (s0 : state) (tr : list label) (s' : state) (code : Z) :
  start h flags = inr (cfg, s0) ->
  exec cfg tr s0 = Some s' ->
  coord s' = MExited code ->
  code = 1 \/ (code = 0 /\ In TimerFires tr /\ timer s' = Spent).
Proof.
  intros Hs He C. apply start_running in Hs as (_ & _ & ->).
  assert (I : (done s' = true -> timer s' = Spent)
              /\ coord s' <> MBlocked
              /\ (forall c, coord s' = MExited c ->
                  c = 1 \/ (c = 0 /\ timer s' = Spent))).
  { refine (exec_invariant cfg _ (shutdown_step cfg) tr _ s' _ He).
    simpl. repeat split; discriminate. }
  destruct I as (_ & _ & X). destruct (X code C) as [->|[-> T]]; [auto|].
  right. repeat split; [|exact T].
  eapply timer_fired_in_run; [|exact He|rewrite T; discriminate]. reflexivity.
Qed.

Lemma spawn_negative (cores : Z) : cores < 0 -> spawn_workers cores = [].
Proof.
  intros H. unfold spawn_workers.
  destruct (Z.to_nat (cores + 2)) as [|fuel]; [reflexivity|].
  simpl. replace (0 <=? cores) with false by (symmetry; apply Z.leb_gt; lia).
  reflexivity.
Qed.

Lemma idle_step (cfg : Config) (l : label) (s s' : state) :
  (workers s = [] /\ resultsCh s = []
   /\ (forall m, coord s <> MHandling m)) ->
  step cfg l s = Some s' ->
  (workers s' = [] /\ resultsCh s' = []
   /\ (forall m, coord s' <> MHandling m))
  /\ results s' = results s /\ disk s' = disk s /\ total s' = total s.
Proof.
  intros (Hw & Hq & Hc) H. unfold step in H.
  destruct (exited s); [discriminate|].
  destruct l as [| | |i mv|mv].
  - injection H as <-. simpl. auto.
  - split_step H. simpl. auto.
  - injection H as <-. simpl. auto.
  - unfold worker_step in H. rewrite Hw in H.
    destruct i; discriminate H.
  - unfold coord_step in H.
    destruct (coord s) eqn:C; destruct mv; try discriminate H.
    + split_step H. simpl. rewrite C. repeat split; auto; discriminate.
    + split_step H. simpl. repeat split; auto; discriminate.
    + cbv zeta in H. split_step H; simpl; rewrite ?C;
        repeat split; auto; discriminate.
    + split_step H. simpl. repeat split; auto; discriminate.
    + rewrite Hq in H. discriminate H.
    + exfalso. apply (Hc m). reflexivity.
Qed.

(** X12.  With a negative [-cores] no worker is started at all, and the
    run that follows never finds anything: the list in memory stays empty,
    the file is never touched and the counter stays at 0, until the
    deadline or a signal ends the process. *)
Theorem negative_cores_run_is_idle (h : Host) (flags cfg : Config)
    (s0 : state) (tr : list label) (s' : state) :
  Cores flags < 0 ->
  start h flags = inr (cfg, s0) ->
  exec cfg tr s0 = Some s' ->
  workers s0 = []
  /\ workers s' = [] /\ results s' = [] /\ disk s' = disk0 h /\ total s' = 0.
Proof.
  intros Hc Hs He. apply start_running in Hs as (_ & _ & ->).
  simpl workers. rewrite (spawn_negative _ Hc) in *. split; [reflexivity|].
  assert (I : (workers s' = [] /\ resultsCh s' = []
               /\ (forall m, coord s' <> MHandling m))
              /\ results s' = [] /\ disk s' = disk0 h /\ total s' = 0).
  { refine (exec_invariant cfg
              (fun s => (workers s = [] /\ resultsCh s = []
                         /\ (forall m, coord s <> MHandling m))
                        /\ results s = [] /\ disk s = disk0 h /\ total s = 0)
              _ tr _ s' _ He).
    - intros l s s1 (I & R & D & T) H.
      destruct (idle_step cfg l s s1 I H) as (I1 & R1 & D1 & T1).
      rewrite R1, D1, T1. auto.
    - simpl. repeat split; discriminate. }
  destruct I as ((W & _ & _) & R & D & T). auto.
Qed.

Lemma holds_set_nth_keep (ws : list wstate) :
  forall (i : nat) (w0 w : wstate) (m : result),
    nth_error ws i = Some w0 ->
    In m (flat_map holds ws) ->
    In m (holds w0) \/ In m (flat_map holds (set_nth i w ws)).
Proof.
  induction ws as [|x ws IH]; intros [|i] w0 w m Hn Hin; simpl in *;
    try discriminate.
  - injection Hn as ->. apply in_app_iff in Hin as [Hin|Hin]; [auto|].
    right. apply in_app_iff. auto.
  - apply in_app_iff in Hin as [Hin|Hin].
    + right. apply in_app_iff. auto.
    + destruct (IH i w0 w m Hn Hin) as [H|H]; [auto|].
      right. apply in_app_iff. auto.
Qed.

Lemma holds_set_nth_new (ws : list wstate) :
  forall (i : nat) (w0 w : wstate) (m : result),
    nth_error ws i = Some w0 ->
    In m (holds w) ->
    In m (flat_map holds (set_nth i w ws)).
Proof.
  induction ws as [|x ws IH]; intros [|i] w0 w m Hn Hin; simpl in *;
    try discriminate; apply in_app_iff; [left; exact Hin|].
  right. eapply IH; eassumption.
Qed.

Lemma kept_step (cfg : Config) (l : label) (s s' : state) (m : result) :
  step cfg l s = Some s' ->
  In m (in_flight s) \/ In m (results s) \/ In m (found_by cfg l) ->
  In m (in_flight s') \/ In m (results s').
Proof.
  intros H Hm. unfold step in H.
  destruct (exited s); [discriminate|].
  unfold in_flight in *. rewrite !in_app_iff in *.
  destruct l as [| | |i mv|mv].
  - injection H as <-. simpl in *. tauto.
  - split_step H. simpl in *. tauto.
  - injection H as <-. simpl in *. tauto.
  - unfold worker_step in H.
    destruct (nth_error (workers s) i) as [w0|] eqn:Hn; [|discriminate].
    assert (K : forall w, In m (flat_map holds (workers s)) ->
                          In m (holds w0)
                          \/ In m (flat_map holds (set_nth i w (workers s))))
      by (intros w; apply holds_set_nth_keep, Hn).
    destruct w0; destruct mv; try discriminate H.
    + specialize (K WReturned). split_step H. simpl in *. tauto.
    + specialize (K WReturned). split_step H. simpl in *. tauto.
    + specialize (K WSearch). split_step H. simpl in *. tauto.
    + simpl found_by in Hm. destruct (matches (Find cfg) kp).
      * injection H as <-.
        pose proof (holds_set_nth_new (workers s) i WSearch
                      (WSend {| Address := Address kp; Seed := Seed kp |}) m Hn) as N.
        specialize (K (WSend {| Address := Address kp; Seed := Seed kp |})).
        simpl in *. tauto.
      * split_step H; simpl in *; tauto.
    + specialize (K WSelect). split_step H. simpl in *.
      rewrite in_app_iff. simpl. tauto.
  - unfold coord_step in H.
    destruct (coord s) eqn:C; destruct mv; try discriminate H.
    + split_step H. simpl in *. rewrite C. simpl in *. tauto.
    + split_step H. simpl in *. tauto.
    + cbv zeta in H. split_step H; simpl in *; rewrite ?C; simpl in *; tauto.
    + split_step H. simpl in *. tauto.
    + destruct (resultsCh s) as [|x rest] eqn:Q; [discriminate|].
      injection H as <-. simpl in *. tauto.
    + pose proof (persist_results_shape cfg o (results s) (disk s) (console s) m0)
        as ((more & R) & _).
      assert (In m (results s) \/ m0 = m ->
              In m (p_results (record_and_persist cfg o (results s) (disk s)
                                 (console s) m0))).
      { rewrite R, in_app_iff. simpl. tauto. }
      split_step H; simpl in *; tauto.
Qed.

Lemma kept_exec (cfg : Config) (tr : list label) (m : result) :
  forall s s',
    exec cfg tr s = Some s' ->
    In m (in_flight s) \/ In m (results s) \/ In m (found cfg tr) ->
    In m (in_flight s') \/ In m (results s').
Proof.
  induction tr as [|l tr IH]; intros s s' H Hm; simpl in *.
  - injection H as <-. tauto.
  - destruct (step cfg l s) as [s1|] eqn:E; [|discriminate].
    rewrite in_app_iff in Hm. apply (IH s1 s' H).
    destruct Hm as [Hm|[Hm|[Hm|Hm]]]; [| | |tauto];
      destruct (kept_step cfg l s s1 m E) as [K|K]; tauto.
Qed.

(** X13.  No pair is dropped while the process runs: at any point of a run
    every pair that passed a worker's test so far is either on its way (at
    the worker's send, in [resultsCh], or just received by the coordinator)
    or in the list in memory, and what is in that list stays in it. *)
Theorem found_pairs_are_kept (h : Host) (flags cfg : Config) (s0 : state)
    (tr : list label) (s' : state) (m : result) :
  start h flags = inr (cfg, s0) ->
  exec cfg tr s0 = Some s' ->
  In m (found cfg tr) ->
  In m (in_flight s') \/ In m (results s').
Proof.
  intros _ He Hm. eapply kept_exec; [exact He|]. tauto.
Qed.

End Runs.

(** *** The test of the search loops *)

Section Matching.
Context {U : Unicode}.









End Matching.

(** *** The added properties on concrete inputs *)

Lemma FormatInt64_groups_by_three_witness :
  FormatInt64 (-999) = Some "-999".
Proof.
  apply (proj2 (FormatInt64_groups_by_three (-999))). lia.
Defined.

Lemma progress_line_fills_width_witness :
  exists line,
    progress_line (Some 40) 12345 12345 = Some line
    /\ Z.of_nat (String.length line) - 1 = 40.
Proof.
  destruct (progress_line_fills_width (Some 40) 12345 12345)
    as (t1 & t2 & line & F1 & F2 & P & _ & E).
  exists line. split; [exact P|].
  vm_compute in F1. vm_compute in F2.
  injection F1 as <-. injection F2 as <-.
  rewrite E by reflexivity. reflexivity.
Defined.

Lemma persist_appends_only_witness :
  p_results (record_and_persist (U := ascii_tables) (J := plain_json)
               (resolved "payme" 1 false) sound_io [] (Some (encode [other]))
               [] payme)
  = [payme; other].
Proof.
  apply (proj1 (proj2 (persist_appends_only (U := ascii_tables) (J := plain_json)
                         (resolved "payme" 1 false) sound_io []
                         (Some (encode [other])) [] payme))
           (encode [other]) [other]);
    vm_compute; reflexivity.
Defined.

Lemma next_pass_doubles_witness :
  let cfg := resolved "A" 1 false in
  let p1 := record_and_persist (U := ascii_tables) (J := plain_json)
              cfg sound_io [other] None [] payme in
  let p2 := record_and_persist (U := ascii_tables) (J := plain_json) cfg sound_io
              (p_results p1) (p_disk p1) (p_console p1) other in
  List.length (p_results p1) = 2%nat /\ List.length (p_results p2) = 5%nat.
Proof.
  intros cfg p1 p2. split; [reflexivity|].
  destruct (next_pass_doubles (U := ascii_tables) (J := plain_json)
              cfg sound_io sound_io [other] None [] payme other) as [_ L].
  - vm_compute. reflexivity.
  - reflexivity.
  - intros b Hb. vm_compute in Hb. injection Hb as <-. vm_compute. reflexivity.
  - fold p1 in L. fold p2 in L. rewrite L. reflexivity.
Defined.

Lemma write_keeps_old_tail_witness :
  let p := record_and_persist (U := ascii_tables) (J := plain_json)
             (resolved "payme" 1 false) unreadable_io []
             (Some (encode [other; other])) [] payme in
  exists file,
    p_disk p = Some file
    /\ String.length file = String.length (encode [other; other])
    /\ file <> encode [payme].
Proof.
  intros p.
  destruct (write_keeps_old_tail (U := ascii_tables) (J := plain_json)
              (resolved "payme" 1 false) unreadable_io []
              (encode [other; other]) [] payme)
    as (file & D & _ & L & _ & N);
    [vm_compute; reflexivity | reflexivity |].
  exists file. split; [exact D|]. split.
  - rewrite L. vm_compute. reflexivity.
  - apply N. vm_compute. lia.
Defined.

Lemma quiet_run_console_witness :
  exists s',
    exec (U := ascii_tables) (J := plain_json) (resolved "payme" 1 true)
      full_run (init_state [WSelect; WSelect] None) = Some s'
    /\ forallb quiet_event (console s') = true.
Proof.
  destruct (exec (U := ascii_tables) (J := plain_json) (resolved "payme" 1 true)
              full_run (init_state [WSelect; WSelect] None)) as [s'|] eqn:E.
  - exists s'. split; [reflexivity|].
    apply (quiet_run_console (U := ascii_tables) (J := plain_json)
             fresh_host (flags_for "payme" 1 true) (resolved "payme" 1 true)
             (init_state [WSelect; WSelect] None) full_run s'
             eq_refl ltac:(vm_compute; reflexivity) E).
  - vm_compute in E. discriminate E.
Defined.

Lemma total_counts_rejected_witness :
  exists s',
    exec (U := ascii_tables) (J := plain_json) (resolved "payme" 1 false)
      full_run (init_state [WSelect; WSelect] None) = Some s'
    /\ total s' = 3.
Proof.
  destruct (exec (U := ascii_tables) (J := plain_json) (resolved "payme" 1 false)
              full_run (init_state [WSelect; WSelect] None)) as [s'|] eqn:E.
  - exists s'. split; [reflexivity|].
    rewrite (total_counts_rejected (U := ascii_tables) (J := plain_json)
               fresh_host (flags_for "payme" 1 false) (resolved "payme" 1 false)
               (init_state [WSelect; WSelect] None) full_run s'
               eq_refl ltac:(vm_compute; reflexivity) E
               ltac:(vm_compute; reflexivity)).
    vm_compute. reflexivity.
  - vm_compute in E. discriminate E.
Defined.

Lemma coordinator_never_blocks_witness :
  exists s',
    exec (U := ascii_tables) (J := plain_json) (resolved "payme" 1 false)
      full_run (init_state [WSelect; WSelect] None) = Some s'
    /\ coord s' <> MBlocked.
Proof.
  destruct (exec (U := ascii_tables) (J := plain_json) (resolved "payme" 1 false)
              full_run (init_state [WSelect; WSelect] None)) as [s'|] eqn:E.
  - exists s'. split; [reflexivity|].
    apply (coordinator_never_blocks (U := ascii_tables) (J := plain_json)
             fresh_host (flags_for "payme" 1 false) (resolved "payme" 1 false)
             (init_state [WSelect; WSelect] None) full_run s'
             ltac:(vm_compute; reflexivity) E).
  - vm_compute in E. discriminate E.
Defined.

Lemma exit_zero_only_after_deadline_witness :
  exists s',
    exec (U := ascii_tables) (J := plain_json) (resolved "payme" 1 false)
      full_run (init_state [WSelect; WSelect] None) = Some s'
    /\ coord s' = MExited 0
    /\ In TimerFires full_run.
Proof.
  destruct (exec (U := ascii_tables) (J := plain_json) (resolved "payme" 1 false)
              full_run (init_state [WSelect; WSelect] None)) as [s'|] eqn:E.
  - assert (C : coord s' = MExited 0)
      by (vm_compute in E; injection E as <-; reflexivity).
    exists s'. split; [reflexivity|]. split; [exact C|].
    destruct (exit_zero_only_after_deadline (U := ascii_tables) (J := plain_json)
                fresh_host (flags_for "payme" 1 false) (resolved "payme" 1 false)
                (init_state [WSelect; WSelect] None) full_run s' 0
                ltac:(vm_compute; reflexivity) E C) as [X|(_ & X & _)].
    + discriminate X.
    + exact X.
  - vm_compute in E. discriminate E.
Defined.

Lemma negative_cores_run_is_idle_witness :
  exists s',
    exec (U := ascii_tables) (J := plain_json) (resolved "payme" (-1) false)
      idle_run (init_state [] None) = Some s'
    /\ results s' = [] /\ disk s' = None.
Proof.
  destruct (exec (U := ascii_tables) (J := plain_json) (resolved "payme" (-1) false)
              idle_run (init_state [] None)) as [s'|] eqn:E.
  - exists s'. split; [reflexivity|].
    destruct (negative_cores_run_is_idle (U := ascii_tables) (J := plain_json)
                fresh_host (flags_for "payme" (-1) false)
                (resolved "payme" (-1) false) (init_state [] None) idle_run s'
                ltac:(vm_compute; reflexivity) ltac:(vm_compute; reflexivity) E)
      as (_ & _ & R & D & _).
    split; [exact R | exact D].
  - vm_compute in E. discriminate E.
Defined.

Lemma found_pairs_are_kept_witness :
  exists s',
    exec (U := ascii_tables) (J := plain_json) (resolved "payme" 1 false)
      full_run (init_state [WSelect; WSelect] None) = Some s'
    /\ (In payme (in_flight s') \/ In payme (results s')).
Proof.
  destruct (exec (U := ascii_tables) (J := plain_json) (resolved "payme" 1 false)
              full_run (init_state [WSelect; WSelect] None)) as [s'|] eqn:E.
  - exists s'. split; [reflexivity|].
    apply (found_pairs_are_kept (U := ascii_tables) (J := plain_json)
             fresh_host (flags_for "payme" 1 false) (resolved "payme" 1 false)
             (init_state [WSelect; WSelect] None) full_run s' payme
             ltac:(vm_compute; reflexivity) E).
    vm_compute. left. reflexivity.
  - vm_compute in E. discriminate E.
Defined.



(** *** The deadline on the clock *)

Section Deadline.
Context {U : Unicode} {J : Json}.

Lemma spawn_loop_awaiting (fuel : nat) :
  forall (i cores : Z) (started : list wstate),
    forallb awaiting started = true ->
    forallb awaiting (spawn_loop fuel i cores started) = true.
Proof.
  induction fuel as [|fuel IH]; intros i cores started H; simpl; [exact H|].
  destruct (i <=? cores); [|exact H].
  apply IH. rewrite forallb_app, H. reflexivity.
Qed.

Lemma awaiting_set_nth (ws : list wstate) :
  forall (i : nat) (w : wstate),
    forallb awaiting ws = true ->
    awaiting w = true ->
    forallb awaiting (set_nth i w ws) = true.
Proof.
  induction ws as [|x ws IH]; intros [|i] w H Hw; simpl in *; try reflexivity;
    apply andb_true_iff in H as [Hx H]; apply andb_true_iff; split;
    try assumption.
  apply IH; assumption.
Qed.

Lemma awaiting_nth (ws : list wstate) (i : nat) (w : wstate) :
  forallb awaiting ws = true -> nth_error ws i = Some w -> awaiting w = true.
Proof.
  intros H Hn. rewrite forallb_forall in H. apply H.
  eapply nth_error_In, Hn.
Qed.

(** While the timer has not fired, no pair passes the test and no signal
    arrives, the coordinator stays at its [select] and nothing is
    written. *)
Lemma waiting_step (cfg : Config) (l : label) (s s' : state) :
  (timer s = Armed /\ coord s = MSelect /\ resultsCh s = []
   /\ watchdog s = false /\ done s = false
   /\ forallb awaiting (workers s) = true) ->
  calm_label cfg l = true ->
  l <> TimerFires ->
  step cfg l s = Some s' ->
  (timer s' = Armed /\ coord s' = MSelect /\ resultsCh s' = []
   /\ watchdog s' = false /\ done s' = false
   /\ forallb awaiting (workers s') = true)
  /\ disk s' = disk s /\ results s' = results s.
Proof.
  intros (T & C & Q & W & D & A) Hcalm Hl H. unfold step in H.
  destruct (exited s); [discriminate|].
  destruct l as [| | |i mv|mv]; simpl in Hcalm.
  - discriminate.
  - contradiction.
  - injection H as <-. simpl. auto 10.
  - unfold worker_step, timer_ready in H. rewrite T, W in H.
    destruct (nth_error (workers s) i) as [w|] eqn:Hn; [|discriminate].
    pose proof (awaiting_nth _ _ _ A Hn) as Hw.
    destruct w; try discriminate Hw; destruct mv; try discriminate H.
    + injection H as <-. simpl.
      repeat split; auto. apply awaiting_set_nth; auto.
    + rewrite negb_true_iff in Hcalm. rewrite Hcalm in H.
      destruct (Quiet cfg); injection H as <-; simpl; auto 10.
  - unfold coord_step, timer_ready in H. rewrite C, T, W, D, Q in H.
    destruct mv; try discriminate H.
    destruct (ticker s); [|discriminate]. injection H as <-. simpl. auto 10.
Qed.

Lemma timed_clock (cfg : Config) (ttr : list tlabel) :
  forall t t',
    timed_exec cfg ttr t = Some t' ->
    clock t <= clock t' /\ fires_at t' = fires_at t.
Proof.
  induction ttr as [|tl ttr IH]; intros t t' H; simpl in H.
  - injection H as <-. split; [lia | reflexivity].
  - destruct (timed_step cfg tl t) as [t1|] eqn:E; [|discriminate].
    destruct (IH t1 t' H) as [Hc Hf].
    unfold timed_step in E. destruct tl as [d|l].
    + destruct (d <? 0) eqn:Hd; [discriminate|]. apply Z.ltb_ge in Hd.
      destruct (exited (proc t)); [discriminate|]. simpl in E.
      injection E as <-. simpl in *. split; [lia | exact Hf].
    + destruct (match l with TimerFires => _ | _ => _ end); [discriminate|].
      destruct (step cfg l (proc t)); [|discriminate].
      injection E as <-. simpl in *. split; [lia | exact Hf].
Qed.

Lemma waiting_exec (cfg : Config) (ttr : list tlabel) :
  forall t t',
    (timer (proc t) = Armed /\ coord (proc t) = MSelect /\ resultsCh (proc t) = []
     /\ watchdog (proc t) = false /\ done (proc t) = false
     /\ forallb awaiting (workers (proc t)) = true) ->
    calm_on_clock cfg ttr = true ->
    timed_exec cfg ttr t = Some t' ->
    clock t' < fires_at t ->
    (timer (proc t') = Armed /\ coord (proc t') = MSelect
     /\ resultsCh (proc t') = []
     /\ watchdog (proc t') = false /\ done (proc t') = false
     /\ forallb awaiting (workers (proc t')) = true)
    /\ disk (proc t') = disk (proc t) /\ results (proc t') = results (proc t).
Proof.
  induction ttr as [|tl ttr IH]; intros t t' I Hcalm H Hclock; simpl in *.
  - injection H as <-. auto.
  - apply andb_true_iff in Hcalm as [Hc1 Hc2].
    destruct (timed_step cfg tl t) as [t1|] eqn:E; [|discriminate].
    destruct (timed_clock cfg ttr t1 t' H) as [Hmono Hf].
    unfold timed_step in E. destruct tl as [d|l].
    + destruct ((d <? 0) || exited (proc t)); [discriminate|].
      injection E as <-.
      apply (IH {| clock := clock t + d; fires_at := fires_at t; proc := proc t |}
               t' I Hc2 H).
      simpl. exact Hclock.
    + destruct (match l with TimerFires => _ | _ => _ end) eqn:G;
        [discriminate|].
      destruct (step cfg l (proc t)) as [s1|] eqn:S; [|discriminate].
      injection E as <-. simpl in *.
      assert (Hl : l <> TimerFires).
      { intros ->. apply Z.ltb_ge in G. lia. }
      destruct (waiting_step cfg l (proc t) s1 I Hc1 Hl S) as (I1 & D1 & R1).
      destruct (IH {| clock := clock t; fires_at := fires_at t; proc := s1 |}
                  t' I1 Hc2 H Hclock) as (I' & D' & R').
      simpl in D', R'. rewrite D', R', D1, R1. auto.
Qed.

(** C2.  The timer is created at line 86, before [config.Parse] has read
    the command line, so it is created with the 86400 seconds [-stop] is
    registered with, whatever [-stop] says.  In a run in which no pair
    passes the test and no signal arrives, the process is still running at
    every moment of the first day: the timer cannot fire, the coordinator
    is at its [select], and the file is untouched, also when the seconds of
    [-stop] have long passed. *)
Theorem stop_flag_does_not_set_deadline (h : Host) (gomaxprocs : Z)
    (flags cfg : Config) (t0 : timed) (ttr : list tlabel) (t' : timed) :
  boot h gomaxprocs flags = inr (cfg, t0) ->
  calm_on_clock cfg ttr = true ->
  timed_exec cfg ttr t0 = Some t' ->
  clock t' < 60 * 60 * 24 ->
  Stop cfg = Stop flags
  /\ fires_at t' = 60 * 60 * 24
  /\ timer (proc t') = Armed
  /\ timed_step cfg (Act TimerFires) t' = None
  /\ coord (proc t') = MSelect
  /\ exited (proc t') = false
  /\ disk (proc t') = disk0 h
  /\ results (proc t') = [].
Proof.
  intros B Hcalm H Hclock. unfold boot in B.
  destruct (start h flags) as [code|[cfg0 s0]] eqn:S; [discriminate|].
  injection B as <- <-.
  apply start_running in S as (_ & Hcfg & ->).
  destruct (timed_clock _ _ _ _ H) as [_ Hf]. simpl in Hf.
  pose proof (fun I => waiting_exec cfg0 ttr _ t' I Hcalm H) as W.
  simpl in W. destruct W as ((T & C & _) & D & R).
  - repeat split; try reflexivity.
    unfold spawn_workers. apply spawn_loop_awaiting. reflexivity.
  - lia.
  - split; [rewrite Hcfg; reflexivity|]. split; [exact Hf|].
    split; [exact T|]. split; [|split; [exact C|]].
    + unfold timed_step. rewrite Hf.
      destruct (clock t' <? _) eqn:G; [reflexivity|].
      apply Z.ltb_ge in G. lia.
    + split; [unfold exited; rewrite C; reflexivity|].
      split; [exact D | exact R].
Qed.


End Deadline.

Lemma stop_flag_does_not_set_deadline_witness :
  boot (U := ascii_tables) fresh_host 8 flags_stop_one
  = inr (cfg_stop_one, booted)
  /\ exists t',
       timed_exec (U := ascii_tables) (J := plain_json) cfg_stop_one
         seven_seconds booted = Some t'
       /\ Stop cfg_stop_one = 1
       /\ clock t' = 7
       /\ coord (proc t') = MSelect
       /\ timed_step (U := ascii_tables) (J := plain_json) cfg_stop_one
            (Act TimerFires) t' = None.
Proof.
  assert (B : boot (U := ascii_tables) fresh_host 8 flags_stop_one
              = inr (cfg_stop_one, booted)) by (vm_compute; reflexivity).
  split; [exact B|].
  destruct (timed_exec (U := ascii_tables) (J := plain_json) cfg_stop_one
              seven_seconds booted) as [t'|] eqn:E.
  - exists t'. split; [reflexivity|]. split; [reflexivity|].
    assert (K : clock t' = 7)
      by (vm_compute in E; injection E as <-; reflexivity).
    split; [exact K|].
    destruct (stop_flag_does_not_set_deadline (U := ascii_tables)
                (J := plain_json) fresh_host 8 flags_stop_one cfg_stop_one
                booted seven_seconds t' B
                ltac:(vm_compute; reflexivity) E ltac:(rewrite K; lia))
      as (_ & _ & _ & N & C & _).
    split; [exact C | exact N].
  - vm_compute in E. discriminate E.
Defined.

